(** * A product search engine: index builder (TP2) and query browser (TP3)

    Shallow embedding of [TP2/index_builder.py] and [TP3/browser.py].

    Modelling conventions.
    - Python [dict]s with string keys are [gmap string _], Python [set]s of
      strings are [gset string]; iterating a set or a dict visits
      [elements] / [map_to_list] (some fixed order without repetition).
    - A Python exception is a value of [exn]; code that may raise returns
      [result A].
    - Python [float]s are modelled by exact real numbers [R]: rounding of
      IEEE arithmetic is not part of the model.
    - Text is a [string] of ASCII characters; characters above 127 are kept
      unchanged by [lower] and are neither punctuation nor whitespace.
    - [save_results] only serialises the value it is given; a builder is
      modelled by the value it returns, and [search] by the value it hands
      to [save_results].
    - On ASCII text the regular expression class of digits is [0-9];
      [re.search] returns the leftmost match and a repetition is greedy. *)

From Stdlib Require Import Reals Lra Lia ZArith QArith Ascii String Sorted.
From stdpp Require Import base gmap sets list strings fin_maps.

Local Open Scope string_scope.
Local Open Scope list_scope.

(** ** Exceptions and the error monad *)

Inductive exn :=
| AttributeError | KeyError | TypeError | ValueError
| ZeroDivisionError | StatisticsError | IndexError.

Inductive result (A : Type) :=
| Ok (a : A)
| Raise (e : exn).
Arguments Ok {A} a.
Arguments Raise {A} e.

#[global] Instance result_ret : MRet result := fun A a => Ok a.
#[global] Instance result_bind : MBind result := fun A B f m =>
  match m with
  | Ok a => f a
  | Raise e => Raise e
  end.

Definition is_Ok {A} (r : result A) : Prop := ∃ a, r = Ok a.

(** ** Text primitives shared by both programs *)

Module Text.

Definition code (c : ascii) : N := N_of_ascii c.

(** [str.lower()] on ASCII: [A-Z] shifts to [a-z]. *)
Definition is_upper (c : ascii) : bool :=
  ((65 <=? code c) && (code c <=? 90))%N.

Definition lower_char (c : ascii) : ascii :=
  if is_upper c then ascii_of_N (code c + 32) else c.

Fixpoint lower (s : string) : string :=
  match s with
  | EmptyString => EmptyString
  | String c s' => String (lower_char c) (lower s')
  end.

(** [string.punctuation]: the 32 ASCII characters
    33-47, 58-64, 91-96 and 123-126. *)
Definition is_punctuation (c : ascii) : bool :=
  (((33 <=? code c) && (code c <=? 47))
   || ((58 <=? code c) && (code c <=? 64))
   || ((91 <=? code c) && (code c <=? 96))
   || ((123 <=? code c) && (code c <=? 126)))%N.

(** [text.translate(...)] with the table deleting [string.punctuation] *)
Fixpoint remove_punctuation (s : string) : string :=
  match s with
  | EmptyString => EmptyString
  | String c s' =>
      if is_punctuation c then remove_punctuation s'
      else String c (remove_punctuation s')
  end.

(** Whitespace of [str.split()] in the ASCII range:
    tab, newline, vertical tab, form feed, carriage return (9-13),
    the separators 28-31 and the space (32). *)
Definition is_space (c : ascii) : bool :=
  (((9 <=? code c) && (code c <=? 13))
   || ((28 <=? code c) && (code c <=? 32)))%N.

(** [text.split()]: maximal runs of non-whitespace characters.
    [cur] is the run being read, most recent character first. *)
Definition flush (cur : list ascii) (rest : list string) : list string :=
  match cur with
  | [] => rest
  | _ => string_of_list_ascii (rev cur) :: rest
  end.

Fixpoint split_from (cur : list ascii) (s : string) : list string :=
  match s with
  | EmptyString => flush cur []
  | String c s' =>
      if is_space c then flush cur (split_from [] s')
      else split_from (c :: cur) s'
  end.

Definition split (s : string) : list string := split_from [] s.

Fixpoint keep (p : ascii → bool) (s : string) : string :=
  match s with
  | EmptyString => EmptyString
  | String c s' => if p c then String c (keep p s') else keep p s'
  end.

Fixpoint all_chars (p : ascii → bool) (s : string) : bool :=
  match s with
  | EmptyString => true
  | String c s' => p c && all_chars p s'
  end.

End Text.

(** A Python [for] loop that updates an accumulator and may raise. *)
Fixpoint foldM {A B} (f : B → A → result B) (b : B) (l : list A) : result B :=
  match l with
  | [] => Ok b
  | x :: l' => b' ← f b x; foldM f b' l'
  end.

(** ** Python built-ins used by the programs *)

(** [x / y] on floats (and true division of ints). *)
Definition py_div (x y : R) : result R :=
  if Req_dec_T y 0 then Raise ZeroDivisionError else Ok (x / y)%R.

(** [math.log(x)] *)
Definition math_log (x : R) : result R :=
  if Rlt_dec 0 x then Ok (ln x) else Raise ValueError.

(** [d[k]] on a dict *)
Definition getitem {V} (d : gmap string V) (k : string) : result V :=
  match d !! k with
  | Some v => Ok v
  | None => Raise KeyError
  end.

(** [p[key]] where the key of a JSON object may be absent *)
Definition required_key {V} (v : option V) : result V :=
  match v with
  | Some x => Ok x
  | None => Raise KeyError
  end.

(** [round(x, 3)]: nearest multiple of 1/1000, ties to the even one. *)
Definition floor (x : R) : Z := (up x - 1)%Z.

Definition round_half_even (x : R) : Z :=
  let f := floor x in
  let d := (x - IZR f)%R in
  if Rlt_dec d (1 / 2) then f
  else if Rlt_dec (1 / 2) d then (f + 1)%Z
  else if Z.even f then f else (f + 1)%Z.

Definition round3 (x : R) : R := (IZR (round_half_even (x * 1000)) / 1000)%R.

(** One review of a product: only the presence and value of its
    [rating] key is ever read. *)
Record review := { rating : option Q }.

(** ** TP2/index_builder.py *)

Module IndexBuilder.

(** *** Product urls *)

(** [\d] on ASCII text: the digits 0-9. *)
Definition is_digit (c : ascii) : bool :=
  ((48 <=? Text.code c) && (Text.code c <=? 57))%N.

(** The longest run of digits at the start of [s]: what [\d+] matches
    there. *)
Fixpoint take_digits (s : string) : string :=
  match s with
  | EmptyString => EmptyString
  | String c s' =>
      if is_digit c then String c (take_digits s') else EmptyString
  end.

(** [re.search] for a slash followed by digits: the digits (group 1) of
    the leftmost match. *)
Fixpoint search_product_id (url : string) : option string :=
  match url with
  | EmptyString => None
  | String c rest =>
      if Ascii.eqb c "/" then
        match take_digits rest with
        | EmptyString => search_product_id rest
        | digits => Some digits
        end
      else search_product_id rest
  end.

(** [s[n:]] *)
Fixpoint drop_chars (n : nat) (s : string) : string :=
  match n, s with
  | S k, String _ s' => drop_chars k s'
  | _, _ => s
  end.

(** [sep in s] *)
Fixpoint str_contains (sep s : string) : bool :=
  String.prefix sep s
  || match s with
     | EmptyString => false
     | String _ s' => str_contains sep s'
     end.

(** [s.split(sep)] for a non-empty [sep]: [skip] counts the characters
    of a separator still to pass over, [cur] is the piece being read,
    most recent character first. *)
Fixpoint split_at (sep : string) (skip : nat) (cur : list ascii)
    (s : string) : list string :=
  match s with
  | EmptyString => [string_of_list_ascii (rev cur)]
  | String c s' =>
      match skip with
      | S k => split_at sep k cur s'
      | O =>
          if String.prefix sep s
          then string_of_list_ascii (rev cur)
               :: split_at sep (String.length sep - 1) [] s'
          else split_at sep 0 (c :: cur) s'
      end
  end.

Definition str_split (sep s : string) : list string := split_at sep 0 [] s.

(** [extract_product_id_and_variant(url)] *)
Definition extract_product_id_and_variant (url : string)
  : option string * option string :=
  let product_id := search_product_id url in
  let variant :=
    if str_contains "variant=" url
    then str_split "variant=" url !! 1%nat
    else None in
  (product_id, variant).

(** *** Tokenization and indexes *)

(** Common English stopwords removed during tokenization. *)
Definition STOPWORDS : list string :=
  [ "a"; "an"; "the"; "and"; "or"; "but"; "if"; "while"; "with"; "of";
    "at"; "by"; "for"; "in"; "on"; "to"; "from"; "as"; "is"; "are";
    "was"; "were"; "be"; "been"; "has"; "have"; "it"; "this"; "that";
    "these"; "those"; "so"; "not"; "your"; "my"; "their"; "our"; "can";
    "will"; "just"; "i"; "you"; "he"; "she"; "they"; "we"; "me"; "him";
    "her"; "them"; "do"; "does"; "did" ].

(** [tokenize(text)] : lowercase, remove punctuation, split, remove
    stopwords. *)
Definition tokenize (text : string) : list string :=
  let text := Text.lower text in
  let text := Text.remove_punctuation text in
  let tokens := Text.split text in
  filter (λ t, t ∉ STOPWORDS) tokens.

(** A product line of [products.jsonl].  [url] is [doc.get("url")],
    [text] holds the string-valued fields ([title], [description], ...),
    [product_features] the features with their values already
    stringified by [str]. *)
Record document := {
  url : option string;
  text : gmap string string;
  product_reviews : option (list review);
  product_features : option (gmap string string)
}.

(** [enumerate(l)] *)
Definition enumerate {A} (l : list A) : list (nat * A) :=
  imap (λ idx t, (idx, t)) l.

(** The [positions_map] loop of [build_inverted_index]. *)
Definition positions_map (split_tokens : list string)
  : gmap string (list nat) :=
  foldl (λ (pm : gmap string (list nat)) '(idx, t),
           <[t := default [] (pm !! t) ++ [idx]]> pm)
        ∅ (enumerate split_tokens).

(** Body of the loop over documents in [build_inverted_index]. *)
Definition index_document (fld : string)
    (index : gmap string (gmap (option string) (list nat)))
    (doc : document) : gmap string (gmap (option string) (list nat)) :=
  let u := url doc in
  let txt := default EmptyString (text doc !! fld) in
  let tokens : gset string := list_to_set (tokenize txt) in
  let pm := positions_map (tokenize txt) in
  foldl (λ (index : gmap string (gmap (option string) (list nat))) token,
           <[token := <[u := default [] (pm !! token)]>
                        (default ∅ (index !! token))]> index)
        index (elements tokens).

(** [build_inverted_index(documents, field)] *)
Definition build_inverted_index (documents : list document) (fld : string)
  : gmap string (gmap (option string) (list nat)) :=
  foldl (index_document fld) ∅ documents.

Record review_stats := {
  total_reviews : nat;
  mean_mark : Q;
  last_rating : Q
}.

(** [statistics.mean(ratings)] *)
Definition mean (ratings : list Q) : result Q :=
  match ratings with
  | [] => Raise StatisticsError
  | _ => Ok (Qred (foldl Qplus 0%Q ratings
                     / inject_Z (Z.of_nat (length ratings))))
  end.

(** [ratings[-1]] *)
Definition last_item (ratings : list Q) : result Q :=
  match last ratings with
  | Some r => Ok r
  | None => Raise IndexError
  end.

(** Body of the loop over documents in [build_reviews_index]. *)
Definition index_reviews
    (reviews_index : gmap (option string) review_stats) (doc : document)
  : result (gmap (option string) review_stats) :=
  let u := url doc in
  let reviews := default [] (product_reviews doc) in
  match reviews with
  | [] =>
      (* Handle products with no reviews *)
      Ok (<[u := {| total_reviews := 0;
                    mean_mark := 0;
                    last_rating := 0 |}]> reviews_index)
  | _ =>
      (* Extract numerical ratings *)
      let ratings := omap rating reviews in
      m ← mean ratings;
      l ← last_item ratings;
      Ok (<[u := {| total_reviews := length ratings;
                    mean_mark := m;
                    last_rating := l |}]> reviews_index)
  end.

(** [build_reviews_index(documents)] *)
Definition build_reviews_index (documents : list document)
  : result (gmap (option string) review_stats) :=
  foldM index_reviews ∅ documents.

(** [build_feature_indexes(documents)]: per feature, token -> [urls]. *)
Definition feature_index (feature : string) (documents : list document)
  : gmap string (list string) :=
  foldl (λ (feature_indexes : gmap string (list string)) doc,
           let u := default EmptyString (url doc) in
           let features := default ∅ (product_features doc) in
           match features !! feature with
           | Some feature_value =>
               foldl (λ (fi : gmap string (list string)) token,
                        <[token := default [] (fi !! token) ++ [u]]> fi)
                     feature_indexes (tokenize feature_value)
           | None => feature_indexes
           end) ∅ documents.

Definition build_feature_indexes (documents : list document)
  : gmap string (gmap string (list string)) :=
  let all_features : gset string :=
    foldl (λ (all_features : gset string) doc,
             all_features ∪ dom (default ∅ (product_features doc)))
          ∅ documents in
  foldl (λ (all_indexes : gmap string (gmap string (list string))) feature,
           <[feature := feature_index feature documents]> all_indexes)
        ∅ (elements all_features).

End IndexBuilder.

(** ** TP3/browser.py *)

Module Browser.

(** *** Loaded index files

    [load_json] returns a dict from token to whatever the file stores
    under it.  The index builder writes three shapes:
    - text index      : [{url: [positions]}]
    - feature index   : [[url, ...]]
    - reviews index   : [{total_reviews, mean_mark, last_rating}]
      (stored under a url rather than a token). *)
Inductive entry :=
| Postings (p : gmap string (list nat))
| Urls (l : list string)
| Stats (total_reviews : nat) (mean_mark last_rating : Q).

Definition stats_keys : gset string :=
  {[ "total_reviews"; "mean_mark"; "last_rating" ]}.

(** [e.keys()] *)
Definition keys (e : entry) : result (gset string) :=
  match e with
  | Postings p => Ok (dom p)
  | Urls _ => Raise AttributeError
  | Stats _ _ _ => Ok stats_keys
  end.

(** [doc in e] *)
Definition contains (doc : string) (e : entry) : bool :=
  match e with
  | Postings p => bool_decide (doc ∈ dom p)
  | Urls l => bool_decide (doc ∈ l)
  | Stats _ _ _ => bool_decide (doc ∈ stats_keys)
  end.

(** [len(e[doc])] *)
Definition len_item (e : entry) (doc : string) : result nat :=
  match e with
  | Postings p =>
      match p !! doc with
      | Some positions => Ok (length positions)
      | None => Raise KeyError
      end
  | Urls _ => Raise TypeError
  | Stats _ _ _ =>
      if bool_decide (doc ∈ stats_keys) then Raise TypeError
      else Raise KeyError
  end.

(** [len(e)] *)
Definition len (e : entry) : nat :=
  match e with
  | Postings p => size p
  | Urls l => length l
  | Stats _ _ _ => 3
  end.

(** Module-level state of the browser: the five loaded indexes, the
    NLTK English stopword list and the synonym table. *)
Record globals := {
  title_index : gmap string entry;
  description_index : gmap string entry;
  brand_index : gmap string entry;
  origin_index : gmap string entry;
  reviews_index : gmap string entry;
  STOPWORDS : list string;
  synonyms : gmap string (list string)
}.

(** What [load_json] yields on a file written by
    [build_inverted_index] / [build_feature_indexes]. *)
Definition load_text_index (file : gmap string (gmap string (list nat)))
  : gmap string entry := Postings <$> file.

Definition load_feature_index (file : gmap string (list string))
  : gmap string entry := Urls <$> file.

(** *** Text preprocessing *)

(** [tokenize(text)] : lowercase, remove punctuation, split. *)
Definition tokenize (text : string) : list string :=
  let text := Text.lower text in
  let text := Text.remove_punctuation text in
  let tokens := Text.split text in
  tokens.

(** [normalize(tokens)] *)
Definition normalize (g : globals) (tokens : list string) : list string :=
  filter (λ t, t ∉ STOPWORDS g) tokens.

(** [expand_with_synonyms(tokens)] *)
Definition expand_with_synonyms (g : globals) (tokens : list string)
  : list string :=
  let expanded : gset string := list_to_set tokens in
  let expanded :=
    foldl (λ (expanded : gset string) t,
             match synonyms g !! t with
             | Some syns => expanded ∪ list_to_set syns
             | None => expanded
             end) expanded tokens in
  elements expanded.

(** [process_query(query)] *)
Definition process_query (g : globals) (query : string) : list string :=
  let tokens := tokenize query in
  let tokens := normalize g tokens in
  let tokens := expand_with_synonyms g tokens in
  tokens.

(** *** Document filtering *)

(** [filter_any_token(tokens, index)] *)
Definition filter_any_token (tokens : list string)
    (index : gmap string entry) : result (gset string) :=
  foldM (λ (docs : gset string) t,
           match index !! t with
           | Some e => ks ← keys e; Ok (docs ∪ ks)
           | None => Ok docs
           end) ∅ tokens.

(** [set.intersection] unpacked over a non-empty [doc_sets] *)
Definition intersection (first : gset string) (rest : list (gset string))
  : gset string :=
  foldl (∩) first rest.

(** [filter_all_tokens(tokens, index)] *)
Definition filter_all_tokens (tokens : list string)
    (index : gmap string entry) : result (gset string) :=
  doc_sets ← foldM (λ (doc_sets : list (gset string)) t,
                      match index !! t with
                      | Some e => ks ← keys e; Ok (doc_sets ++ [ks])
                      | None => Ok doc_sets
                      end) [] tokens;
  match doc_sets with
  | [] => Ok ∅
  | first :: rest => Ok (intersection first rest)
  end.

(** The indexes [filter_documents] loops over. *)
Definition wired (g : globals) : list (gmap string entry) :=
  [title_index g; description_index g; brand_index g; origin_index g].

(** [filter_documents(tokens)] *)
Definition filter_documents (g : globals) (tokens : list string)
  : result (gset string) :=
  candidates ← foldM (λ (candidates : gset string) idx,
                        docs ← filter_any_token tokens idx;
                        Ok (candidates ∪ docs)) ∅ (wired g);
  strict ← filter_all_tokens tokens (title_index g);
  Ok (candidates ∪ strict).

(** *** BM25 scoring *)

(** [bm25_score(tf, df, doc_len, avgdl, N, k1, b)] *)
Definition bm25_score_with (k1 b : R) (tf df doc_len avgdl N : R)
  : result R :=
  q ← py_div (N - df + 0.5) (df + 0.5);
  idf ← math_log (1 + q);
  r ← py_div (b * doc_len) avgdl;
  frac ← py_div (tf * (k1 + 1)) (tf + k1 * (1 - b + r));
  Ok (idf * frac)%R.

(** The defaults [k1=1.5, b=0.75]. *)
Definition bm25_score : R → R → R → R → R → result R :=
  bm25_score_with 1.5 0.75.

(** [sum(doc_lengths.values())] *)
Definition sum_values (doc_lengths : gmap string Z) : Z :=
  foldl Z.add 0%Z (snd <$> map_to_list doc_lengths).

(** Body of the inner loop of [bm25], over [postings.items()]. *)
Definition bm25_posting (doc_lengths : gmap string Z) (df N : nat)
    (avgdl : R) (scores : gmap string R) (item : string * list nat)
  : result (gmap string R) :=
  let '(url, positions) := item in
  let tf := length positions in
  let doc_len := default 1%Z (doc_lengths !! url) in
  s ← bm25_score (INR tf) (INR df) (IZR doc_len) avgdl (INR N);
  Ok (<[url := (default 0 (scores !! url) + s)%R]> scores).

(** Body of the outer loop of [bm25], over the query tokens. *)
Definition bm25_token (index : gmap string entry)
    (doc_lengths : gmap string Z) (N : nat) (avgdl : R)
    (scores : gmap string R) (t : string) : result (gmap string R) :=
  match index !! t with
  | None => Ok scores
  | Some postings =>
      let df := len postings in
      match postings with
      | Postings p =>
          foldM (bm25_posting doc_lengths df N avgdl) scores (map_to_list p)
      | Urls _ => Raise AttributeError   (* no [.items()] *)
      | Stats _ _ _ => Raise TypeError   (* [len] of a number *)
      end
  end.

(** [bm25(tokens, index, doc_lengths)] *)
Definition bm25 (tokens : list string) (index : gmap string entry)
    (doc_lengths : gmap string Z) : result (gmap string R) :=
  let N := size doc_lengths in
  avgdl ← py_div (IZR (sum_values doc_lengths)) (INR N);
  foldM (bm25_token index doc_lengths N avgdl) ∅ tokens.

(** *** Additional ranking signals *)

(** [exact_match_score(tokens, title_tokens)] *)
Definition exact_match_score (tokens title_tokens : list string) : nat :=
  if bool_decide ((list_to_set tokens : gset string)
                    ⊆ list_to_set title_tokens)
  then 1 else 0.

(** *** Document metadata *)

Record metadata := {
  title : string;
  description : string;
  title_tokens : list string;
  review_count : nat;
  doc_length : nat
}.

(** A product line of [rearranged_products.jsonl], with the four keys
    that are read ([url], [title], [description], [reviews]). *)
Record product := {
  p_url : option string;
  p_title : option string;
  p_description : option string;
  p_reviews : option (list review)
}.

(** [build_documents_metadata(products)] *)
Definition build_documents_metadata (g : globals) (products : list product)
  : result (gmap string metadata) :=
  foldM (λ (md : gmap string metadata) p,
           url ← required_key (p_url p);
           ttl ← required_key (p_title p);
           let descr := default EmptyString (p_description p) in
           let reviews := default [] (p_reviews p) in
           let ttl_tokens := normalize g (tokenize ttl) in
           Ok (<[url := {| title := ttl;
                           description := descr;
                           title_tokens := ttl_tokens;
                           review_count := length reviews;
                           doc_length :=
                             length (normalize g (tokenize descr)) |}]> md))
        ∅ products.

(** *** Final scoring function *)

(** One guarded update of [compute_score]:
    [if t in index and doc in index[t]: score += w * len(index[t][doc])] *)
Definition add_tf (w : R) (index : gmap string entry) (t doc : string)
    (score : R) : result R :=
  match index !! t with
  | Some e =>
      if contains doc e
      then n ← len_item e doc; Ok (score + w * INR n)%R
      else Ok score
  | None => Ok score
  end.

(** [compute_score(doc, tokens, stats)] *)
Definition compute_score (g : globals) (doc : string)
    (tokens : list string) (stats : metadata) : result R :=
  score ← foldM (λ (score : R) t,
                   score ← add_tf 3 (title_index g) t doc score;
                   score ← add_tf 1 (description_index g) t doc score;
                   add_tf 0.5 (reviews_index g) t doc score) 0%R tokens;
  let score :=
    (score + 5 * INR (exact_match_score tokens (title_tokens stats)))%R in
  let score := (score + 0.1 * INR (review_count stats))%R in
  Ok score.

(** *** Search pipeline *)

Record hit := {
  hit_title : string;
  hit_url : string;
  hit_description : string;
  hit_score : R
}.

Record output := {
  query : string;
  total_documents : nat;
  filtered_documents : nat;
  results : list hit
}.

(** [results.sort(key=score, reverse=True)]: stable, descending. *)
Fixpoint insert_desc (h : hit) (l : list hit) : list hit :=
  match l with
  | [] => [h]
  | h' :: l' =>
      if Rlt_dec (hit_score h) (hit_score h') then h' :: insert_desc h l'
      else h :: l
  end.

Definition sort_desc (l : list hit) : list hit := foldr insert_desc [] l.

(** Body of the loop of [search] over the candidate documents. *)
Definition score_candidate (g : globals) (tokens : list string)
    (documents_metadata : gmap string metadata)
    (found : list hit) (doc : string) : result (list hit) :=
  stats ← getitem documents_metadata doc;
  score ← compute_score g doc tokens stats;
  Ok (found ++ [ {| hit_title := title stats;
                    hit_url := doc;
                    hit_description := description stats;
                    hit_score := round3 score |} ]).

(** [search(query, documents_metadata)]; the value is the dict passed
    to [save_results]. *)
Definition search (g : globals) (q : string)
    (documents_metadata : gmap string metadata) : result output :=
  let tokens := process_query g q in
  filtered_docs ← filter_documents g tokens;
  found ← foldM (score_candidate g tokens documents_metadata)
                [] (elements filtered_docs);
  Ok {| query := q;
        total_documents := size documents_metadata;
        filtered_documents := size filtered_docs;
        results := sort_desc found |}.

End Browser.

(** * Specification vocabulary *)

(** ** Tokens *)

Section TextVocabulary.
Import Text.

(** A character that survives [tokenize] inside a token. *)
Definition clean_char (c : ascii) : bool :=
  negb (is_upper c) && negb (is_punctuation c) && negb (is_space c).

(** A token as [tokenize] produces them: a non-empty run of such
    characters. *)
Definition word (t : string) : Prop :=
  t ≠ EmptyString ∧ all_chars clean_char t = true.

End TextVocabulary.

(** ** Shapes of loaded indexes, postings and term frequencies *)

Section IndexVocabulary.
Import Browser.

(** The entry is a dict: [.keys()] is available on it. *)
Definition has_keys (e : entry) : bool :=
  match e with
  | Urls _ => false
  | _ => true
  end.

(** No entry of the index is a bare list of urls. *)
Definition dict_shaped (index : gmap string entry) : Prop :=
  map_Forall (λ _ e, has_keys e = true) index.

(** Every entry of the index is a bare list of urls. *)
Definition list_shaped (index : gmap string entry) : Prop :=
  map_Forall (λ _ e, has_keys e = false) index.

(** The urls stored under token [t], when the entry has keys. *)
Definition posting_urls (index : gmap string entry) (t : string)
  : gset string :=
  match index !! t with
  | Some (Postings p) => dom p
  | Some (Stats _ _ _) => stats_keys
  | _ => ∅
  end.

(** [t in index and url in index[t]] *)
Definition has_posting (index : gmap string entry) (t url : string)
  : Prop :=
  ∃ e, index !! t = Some e ∧ contains url e = true.

(** Union of the posting urls of the query tokens. *)
Definition any_urls (tokens : list string) (index : gmap string entry)
  : gset string :=
  ⋃ (posting_urls index <$> tokens).

(** The key sets of the query tokens present in the index, in query
    order: the [doc_sets] of [filter_all_tokens]. *)
Definition present_sets (tokens : list string)
    (index : gmap string entry) : list (gset string) :=
  omap (λ t, match index !! t with
             | Some _ => Some (posting_urls index t)
             | None => None
             end) tokens.

(** The entry maps urls to position lists. *)
Definition is_postings (e : entry) : bool :=
  match e with
  | Postings _ => true
  | _ => false
  end.

(** A text index: every token maps urls to position lists. *)
Definition positional (index : gmap string entry) : Prop :=
  map_Forall (λ _ e, is_postings e = true) index.

(** [compute_score] can read the index for [doc]: an entry that is not
    a posting dict (a list of urls, a record of review statistics) does
    not contain [doc], so that [len(index[t][doc])] is only evaluated on
    position lists. *)
Definition scorable (doc : string) (index : gmap string entry) : Prop :=
  map_Forall (λ _ e, is_postings e || negb (contains doc e) = true) index.

(** Length of the posting list of [(t, doc)]; zero without posting. *)
Definition posting_length (index : gmap string entry) (doc t : string)
  : nat :=
  match index !! t with
  | Some (Postings p) => length (default [] (p !! doc))
  | _ => 0
  end.

(** Term frequency of a field: posting lengths summed over the query. *)
Definition term_frequency (index : gmap string entry)
    (tokens : list string) (doc : string) : nat :=
  sum_list (posting_length index doc <$> tokens).

End IndexVocabulary.

(** ** The BM25 formula *)

Section ScoreVocabulary.
Local Open Scope R_scope.

(** The inverse document frequency of the BM25 formula. *)
Definition idf (df N : R) : R := ln (1 + (N - df + 0.5) / (df + 0.5)).

(** The length-normalisation term [k1 * (1 - b + b * doc_len / avgdl)]
    for the defaults [k1 = 1.5] and [b = 0.75]. *)
Definition saturation (doc_len avgdl : R) : R :=
  1.5 * (1 - 0.75 + 0.75 * doc_len / avgdl).

(** The BM25 term score as a formula over the reals. *)
Definition bm25_value (tf df doc_len avgdl N : R) : R :=
  idf df N * (tf * (1.5 + 1) / (tf + saturation doc_len avgdl)).

End ScoreVocabulary.

(** ** Stored positions and review lists *)

Section BuilderVocabulary.
Import IndexBuilder.

(** The positions of [t] in a token sequence, counted from [k]. *)
Fixpoint positions_from (k : nat) (t : string) (toks : list string)
  : list nat :=
  match toks with
  | [] => []
  | x :: toks' =>
      if decide (x = t) then k :: positions_from (S k) t toks'
      else positions_from (S k) t toks'
  end.

(** The position list stored under [(token, u)], if any. *)
Definition stored (index : gmap string (gmap (option string) (list nat)))
    (token : string) (u : option string) : option (list nat) :=
  index !! token ≫= (λ by_url, by_url !! u).

(** The tokens of a document's field. *)
Definition field_tokens (fld : string) (doc : document) : list string :=
  tokenize (default EmptyString (text doc !! fld)).

(** What a scan of the documents leaves under [(token, u)]: the
    positions in the last document of url [u] that contains [token]. *)
Definition last_posting (fld token : string) (u : option string)
    (acc : option (list nat)) (doc : document) : option (list nat) :=
  if decide (url doc = u ∧ token ∈ field_tokens fld doc)
  then Some (positions_from 0 token (field_tokens fld doc))
  else acc.

(** A document whose review list is non-empty but carries no rating. *)
Definition unrated (doc : document) : Prop :=
  default [] (product_reviews doc) ≠ []
  ∧ omap rating (default [] (product_reviews doc)) = [].

End BuilderVocabulary.

(** ** Query tokens that hit a bare list of urls *)

Section FilterVocabulary.
Import Browser.

(** Some query token is stored in the index as a bare list of urls:
    the entries on which [.keys()] fails. *)
Definition hits_list (index : gmap string entry) (tokens : list string)
  : bool :=
  existsb (λ t, match index !! t with
                | Some e => negb (has_keys e)
                | None => false
                end) tokens.

End FilterVocabulary.

(** ** Results of a search *)

Section SearchVocabulary.
Import Browser.
Local Open Scope R_scope.

(** Descending order of scores. *)
Definition score_ge (a b : hit) : Prop := hit_score b <= hit_score a.

(** The hits of a list that carry a given score, in their order. *)
Fixpoint with_score (s : R) (l : list hit) : list hit :=
  match l with
  | [] => []
  | h :: l' =>
      if Req_dec_T (hit_score h) s then h :: with_score s l'
      else with_score s l'
  end.

(** [h] is the result that [search] builds for the candidate [doc]. *)
Definition is_hit (g : globals) (tokens : list string)
    (md : gmap string metadata) (doc : string) (h : hit) : Prop :=
  ∃ stats score,
    md !! doc = Some stats
    ∧ compute_score g doc tokens stats = Ok score
    ∧ h = {| hit_title := title stats;
             hit_url := doc;
             hit_description := description stats;
             hit_score := round3 score |}.

End SearchVocabulary.

(** ** Reading postings while scoring *)

Section ScoringVocabulary.
Import Browser.
Local Open Scope R_scope.

(** [compute_score] cannot read the index for [(t, doc)]: the entry
    under [t] contains [doc] but is not a posting dict, so that taking
    the length of what is stored for [doc] fails. *)
Definition unreadable (index : gmap string entry) (doc t : string) : bool :=
  match index !! t with
  | Some e => negb (is_postings e) && contains doc e
  | None => false
  end.

(** The mean document length used by [bm25]. *)
Definition mean_length (doc_lengths : gmap string Z) : R :=
  IZR (sum_values doc_lengths) / INR (size doc_lengths).

(** The BM25 contribution of the query token [t] to the document [url]:
    zero when [t] has no posting for [url]. *)
Definition bm25_term (index : gmap string entry)
    (doc_lengths : gmap string Z) (url t : string) : R :=
  match index !! t with
  | Some (Postings p) =>
      match p !! url with
      | Some positions =>
          bm25_value (INR (length positions)) (INR (size p))
            (IZR (default 1%Z (doc_lengths !! url)))
            (mean_length doc_lengths) (INR (size doc_lengths))
      | None => 0
      end
  | _ => 0
  end.

(** The contributions of all query tokens, repeated tokens counting as
    often as they occur. *)
Definition bm25_sum (index : gmap string entry)
    (doc_lengths : gmap string Z) (tokens : list string) (url : string)
  : R :=
  foldr (λ t acc, bm25_term index doc_lengths url t + acc) 0 tokens.

(** The update the inner loop of [bm25] makes for one posting. *)
Definition add_posting (doc_lengths : gmap string Z) (df : nat)
    (scores : gmap string R) (item : string * list nat) : gmap string R :=
  <[item.1 := default 0 (scores !! item.1)
              + bm25_value (INR (length item.2)) (INR df)
                  (IZR (default 1%Z (doc_lengths !! item.1)))
                  (mean_length doc_lengths) (INR (size doc_lengths))]> scores.

End ScoringVocabulary.

(** ** Metadata records *)

Section MetadataVocabulary.
Import Browser.

(** The product line has the two keys [build_documents_metadata]
    subscripts. *)
Definition complete (p : product) : Prop :=
  is_Some (p_url p) ∧ is_Some (p_title p).

(** The record stored for a product of title [ttl]. *)
Definition product_record (g : globals) (ttl : string) (p : product)
  : metadata :=
  {| title := ttl;
     description := default EmptyString (p_description p);
     title_tokens := normalize g (tokenize ttl);
     review_count := length (default [] (p_reviews p));
     doc_length :=
       length (normalize g
                 (tokenize (default EmptyString (p_description p)))) |}.

(** The update [build_documents_metadata] makes for a complete
    product. *)
Definition add_product (g : globals) (md : gmap string metadata)
    (p : product) : gmap string metadata :=
  match p_url p, p_title p with
  | Some u, Some ttl => <[u := product_record g ttl p]> md
  | _, _ => md
  end.

End MetadataVocabulary.

(** ** Review records and feature postings *)

Section RecordsVocabulary.
Import IndexBuilder.

(** The review list and the ratings [build_reviews_index] reads from a
    document. *)
Definition reviews_of (doc : document) : list review :=
  default [] (product_reviews doc).

Definition ratings_of (doc : document) : list Q :=
  omap rating (reviews_of doc).

(** The record [build_reviews_index] stores for a document it can
    handle. *)
Definition review_record (doc : document) : review_stats :=
  match reviews_of doc with
  | [] => {| total_reviews := 0; mean_mark := 0; last_rating := 0 |}
  | _ =>
      {| total_reviews := length (ratings_of doc);
         mean_mark :=
           Qred (foldl Qplus 0%Q (ratings_of doc)
                 / inject_Z (Z.of_nat (length (ratings_of doc))));
         last_rating := default 0%Q (last (ratings_of doc)) |}
  end.

(** The features of a document, none when the key is absent. *)
Definition features_of (doc : document) : gmap string string :=
  default ∅ (product_features doc).

(** The urls appended under [token] for one feature by a scan of the
    documents: each document's url, once per occurrence of the token in
    the tokenized feature value. *)
Definition feature_postings (feature token : string)
    (documents : list document) : list string :=
  documents ≫= (λ doc,
    match features_of doc !! feature with
    | Some feature_value =>
        replicate (length (filter (λ x, x = token) (tokenize feature_value)))
                  (default EmptyString (url doc))
    | None => []
    end).

(** A posting list as a dict value: absent when empty. *)
Definition posting_entry (l : list string) : option (list string) :=
  if decide (l = []) then None else Some l.

(** No token is mapped to an empty list of urls. *)
Definition no_empty_posting (fi : gmap string (list string)) : Prop :=
  ∀ token, fi !! token = posting_entry (default [] (fi !! token)).

End RecordsVocabulary.

(** ** Parts of a url *)

Section UrlVocabulary.
Import IndexBuilder.

(** The text before and the text after the first occurrence of [sep]
    in [s]. *)
Fixpoint find_first (sep s : string) : option (string * string) :=
  if String.prefix sep s
  then Some (EmptyString, drop_chars (String.length sep) s)
  else match s with
       | EmptyString => None
       | String c s' =>
           match find_first sep s' with
           | Some (before, after) => Some (String c before, after)
           | None => None
           end
       end.

(** No slash of [s] is followed by a digit. *)
Definition no_product_id (s : string) : Prop :=
  ∀ before after,
    s = (before ++ String "/" after)%string → take_digits after = EmptyString.

(** The text up to the first occurrence of [sep], all of [s] when there
    is none. *)
Definition up_to (sep s : string) : string :=
  match find_first sep s with
  | Some (before, _) => before
  | None => s
  end.

End UrlVocabulary.

(** * Example catalogues and browser states *)

(** A catalogue of one product carrying a [brand] feature, the brand
    index the builder writes for it, and the browser state that loads
    it. *)
Definition nike_catalogue : list IndexBuilder.document :=
  [ {| IndexBuilder.url := Some "/p/1";
       IndexBuilder.text := {[ "title" := "Air Max" ]};
       IndexBuilder.product_reviews := None;
       IndexBuilder.product_features := Some {[ "brand" := "Nike" ]} |} ].

Definition nike_brand_index : gmap string Browser.entry :=
  Browser.load_feature_index
    (default ∅ (IndexBuilder.build_feature_indexes nike_catalogue !! "brand")).

Definition nike_globals : Browser.globals :=
  {| Browser.title_index :=
       Browser.load_text_index
         {[ "air" := {[ "/p/1" := [0] ]}; "max" := {[ "/p/1" := [1] ]} ]};
     Browser.description_index := ∅;
     Browser.brand_index := nike_brand_index;
     Browser.origin_index := ∅;
     Browser.reviews_index := ∅;
     Browser.STOPWORDS := [];
     Browser.synonyms := ∅ |}.

(** The two-product catalogue of the end-to-end scenario, with the
    reviews index in the shape the builder writes it. *)
Definition beanie_globals : Browser.globals :=
  {| Browser.title_index :=
       Browser.load_text_index
         {[ "red" := {[ "/1" := [0] ]}; "beanie" := {[ "/1" := [1] ]};
            "blue" := {[ "/2" := [0] ]}; "scarf" := {[ "/2" := [1] ]} ]};
     Browser.description_index :=
       Browser.load_text_index
         {[ "warm" := {[ "/1" := [1] ]}; "red" := {[ "/1" := [2] ]};
            "beanie" := {[ "/1" := [3] ]};
            "blue" := {[ "/2" := [1] ]}; "scarf" := {[ "/2" := [2] ]} ]};
     Browser.brand_index := ∅;
     Browser.origin_index := ∅;
     Browser.reviews_index :=
       {[ "/1" := Browser.Stats 2 (9 # 2) 5; "/2" := Browser.Stats 0 0 0 ]};
     Browser.STOPWORDS := ["a"; "the"];
     Browser.synonyms := {[ "beanie" := ["hat"] ]} |}.

(** A browser state whose reviews index is a text index over review
    bodies. *)
Definition review_text_globals : Browser.globals :=
  {| Browser.title_index := Browser.title_index beanie_globals;
     Browser.description_index := Browser.description_index beanie_globals;
     Browser.brand_index := ∅;
     Browser.origin_index := ∅;
     Browser.reviews_index :=
       Browser.load_text_index {[ "beanie" := {[ "/1" := [4; 9; 12] ]} ]};
     Browser.STOPWORDS := ["a"; "the"];
     Browser.synonyms := ∅ |}.

Definition red_beanie_stats : Browser.metadata :=
  {| Browser.title := "Red Beanie";
     Browser.description := "A warm red beanie.";
     Browser.title_tokens := ["red"; "beanie"];
     Browser.review_count := 2;
     Browser.doc_length := 3 |}.

(** The two-product catalogue of the end-to-end scenario. *)
Definition red_beanie_doc : IndexBuilder.document :=
  {| IndexBuilder.url := Some "/1";
     IndexBuilder.text :=
       {[ "title" := "Red Beanie"; "description" := "A warm red beanie." ]};
     IndexBuilder.product_reviews := None;
     IndexBuilder.product_features := None |}.

Definition blue_scarf_doc : IndexBuilder.document :=
  {| IndexBuilder.url := Some "/2";
     IndexBuilder.text :=
       {[ "title" := "Blue Scarf"; "description" := "A blue scarf." ]};
     IndexBuilder.product_reviews := Some [];
     IndexBuilder.product_features := None |}.

Definition beanie_catalogue : list IndexBuilder.document :=
  [red_beanie_doc; blue_scarf_doc].

(** Two product lines sharing one url. *)
Definition red_hat_doc : IndexBuilder.document :=
  {| IndexBuilder.url := Some "/1";
     IndexBuilder.text := {[ "title" := "Red red hat" ]};
     IndexBuilder.product_reviews := None;
     IndexBuilder.product_features := None |}.

Definition same_url_doc : IndexBuilder.document :=
  {| IndexBuilder.url := Some "/1";
     IndexBuilder.text := {[ "title" := "Blue scarf" ]};
     IndexBuilder.product_reviews := None;
     IndexBuilder.product_features := None |}.

Definition shared_url_catalogue : list IndexBuilder.document :=
  [red_hat_doc; same_url_doc].

(** A product whose only review has a text but no [rating] key. *)
Definition unrated_doc : IndexBuilder.document :=
  {| IndexBuilder.url := Some "/3";
     IndexBuilder.text := {[ "title" := "Green Gloves" ]};
     IndexBuilder.product_reviews := Some [ {| rating := None |} ];
     IndexBuilder.product_features := None |}.

(** A product with three reviews, the second without [rating]. *)
Definition rated_doc : IndexBuilder.document :=
  {| IndexBuilder.url := Some "/4";
     IndexBuilder.text := {[ "title" := "Grey Socks" ]};
     IndexBuilder.product_reviews :=
       Some [ {| rating := Some 5%Q |}; {| rating := None |};
              {| rating := Some 4%Q |} ];
     IndexBuilder.product_features := None |}.

Definition blue_scarf_stats : Browser.metadata :=
  {| Browser.title := "Blue Scarf";
     Browser.description := "A blue scarf.";
     Browser.title_tokens := ["blue"; "scarf"];
     Browser.review_count := 0;
     Browser.doc_length := 2 |}.

(** * Properties *)

(** ** Sanity checks of the embedding *)

Example tokenize_abc :
  Browser.tokenize "A, B. C!" = ["a"; "b"; "c"].
Proof. reflexivity. Qed.

Example filter_any_demo :
  Browser.filter_any_token ["red"; "hat"]
    {[ "red" := Browser.Postings {[ "/1" := [0%nat] ]} ]} = Ok {[ "/1" ]}.
Proof. vm_compute. reflexivity. Qed.

Example build_inverted_index_demo :
  IndexBuilder.build_inverted_index [red_hat_doc] "title"
  = {[ "red" := {[ Some "/1" := [0; 1] ]};
       "hat" := {[ Some "/1" := [2] ]} ]}.
Proof. vm_compute. reflexivity. Qed.

(** ** The error monad and loops *)

Lemma bind_Ok {A B} (f : A → result B) (a : A) : (Ok a ≫= f) = f a.
Proof. reflexivity. Qed.

Lemma bind_Raise {A B} (f : A → result B) (e : exn) : (Raise e ≫= f) = Raise e.
Proof. reflexivity. Qed.

Lemma foldM_cons {A B} (f : B → A → result B) (b : B) (x : A) (l : list A) :
  foldM f b (x :: l) = (f b x ≫= λ b', foldM f b' l).
Proof. reflexivity. Qed.

(** ** Text primitives *)

Module TextFacts.
Import Text.

Lemma lower_char_not_upper c : is_upper (lower_char c) = false.
Proof.
  destruct c as [[] [] [] [] [] [] [] []]; vm_compute; reflexivity.
Qed.

Lemma lower_char_id c : is_upper c = false → lower_char c = c.
Proof. unfold lower_char. by intros ->. Qed.

Lemma lower_app s1 s2 : lower (s1 ++ s2) = (lower s1 ++ lower s2)%string.
Proof. induction s1 as [|c s1 IH]; simpl; [done | by rewrite IH]. Qed.

Lemma remove_punctuation_app s1 s2 :
  remove_punctuation (s1 ++ s2)
  = (remove_punctuation s1 ++ remove_punctuation s2)%string.
Proof.
  induction s1 as [|c s1 IH]; simpl; [done|].
  destruct (is_punctuation c); simpl; by rewrite IH.
Qed.

Lemma clean_char_inv c :
  clean_char c = true →
  is_upper c = false ∧ is_punctuation c = false ∧ is_space c = false.
Proof.
  unfold clean_char. rewrite !andb_true_iff, !negb_true_iff. tauto.
Qed.

Lemma lower_clean s : all_chars clean_char s = true → lower s = s.
Proof.
  induction s as [|c s IH]; simpl; [done|].
  rewrite andb_true_iff. intros [Hc Hs].
  apply clean_char_inv in Hc as (Hu & _ & _).
  by rewrite lower_char_id, IH.
Qed.

Lemma remove_punctuation_clean s :
  all_chars clean_char s = true → remove_punctuation s = s.
Proof.
  induction s as [|c s IH]; simpl; [done|].
  rewrite andb_true_iff. intros [Hc Hs].
  apply clean_char_inv in Hc as (_ & Hp & _).
  by rewrite Hp, IH.
Qed.

Lemma flush_app cur l1 l2 : flush cur (l1 ++ l2) = flush cur l1 ++ l2.
Proof. by destruct cur. Qed.

(** Splitting distributes over a whitespace character. *)
Lemma split_from_sep cur s1 c s2 :
  is_space c = true →
  split_from cur (s1 ++ String c s2) = split_from cur s1 ++ split_from [] s2.
Proof.
  intros Hc. revert cur; induction s1 as [|d s1 IH]; intros cur; simpl.
  - by rewrite Hc, <- flush_app.
  - destruct (is_space d); [|apply IH].
    by rewrite IH, flush_app.
Qed.

Lemma split_sep s1 c s2 :
  is_space c = true → split (s1 ++ String c s2) = split s1 ++ split s2.
Proof. apply split_from_sep. Qed.

(** A run without whitespace is read into the accumulator. *)
Lemma split_from_run cur s :
  all_chars (λ c, negb (is_space c)) s = true →
  split_from cur s = flush (rev (list_ascii_of_string s) ++ cur) [].
Proof.
  revert cur; induction s as [|c s IH]; intros cur; simpl; [done|].
  rewrite andb_true_iff, negb_true_iff. intros [-> Hs].
  rewrite IH by done. by rewrite <- app_assoc.
Qed.

Lemma split_word t : word t → split t = [t].
Proof.
  intros [Hne Hcl]. unfold split. rewrite split_from_run.
  - rewrite app_nil_r. destruct t as [|c t]; [done|].
    unfold flush. destruct (rev (list_ascii_of_string (String c t))) eqn:E.
    + apply (f_equal (@length _)) in E. rewrite length_rev in E.
      simpl in E. lia.
    + by rewrite <- E, rev_involutive, string_of_list_ascii_of_string.
  - clear Hne. induction t as [|c t IH]; simpl in *; [done|].
    apply andb_true_iff in Hcl as [Hc Ht].
    apply clean_char_inv in Hc as (_ & _ & ->). simpl. by apply IH.
Qed.

Lemma all_chars_string_of_list p l :
  all_chars p (string_of_list_ascii l) = forallb p l.
Proof. induction l as [|c l IH]; simpl; [done | by rewrite IH]. Qed.

(** Every token produced by [split] is a non-empty run of
    non-whitespace characters taken from the input. *)
Lemma split_from_tokens (p : ascii → bool) cur s :
  forallb (λ c, p c && negb (is_space c)) cur = true →
  all_chars p s = true →
  Forall (λ t, t ≠ EmptyString
               ∧ all_chars (λ c, p c && negb (is_space c)) t = true)
         (split_from cur s).
Proof.
  assert (Hflush : ∀ cur rest,
    forallb (λ c, p c && negb (is_space c)) cur = true →
    Forall (λ t, t ≠ EmptyString
               ∧ all_chars (λ c, p c && negb (is_space c)) t = true) rest →
    Forall (λ t, t ≠ EmptyString
               ∧ all_chars (λ c, p c && negb (is_space c)) t = true)
           (flush cur rest)).
  { intros [|c cur'] rest Hcur Hrest; [done|].
    unfold flush. constructor; [|done]. split.
    - intros E. apply (f_equal String.length) in E.
      rewrite <- (list_ascii_of_string_of_list_ascii (rev (c :: cur'))) in E
        at 1.
      destruct (rev (c :: cur')) eqn:E'; [|done].
      apply (f_equal (@length _)) in E'. rewrite length_rev in E'. done.
    - rewrite all_chars_string_of_list, forallb_forall.
      intros x Hx. apply in_rev in Hx.
      rewrite forallb_forall in Hcur. by apply Hcur. }
  revert cur; induction s as [|c s IH]; intros cur Hcur Hs; simpl.
  - by apply Hflush.
  - simpl in Hs. apply andb_true_iff in Hs as [Hc Hs].
    destruct (is_space c) eqn:Hsp.
    + apply Hflush; [done|]. by apply IH.
    + apply IH; [|done]. simpl. by rewrite Hc, Hsp, Hcur.
Qed.

Lemma lower_no_upper s : all_chars (λ c, negb (is_upper c)) (lower s) = true.
Proof.
  induction s as [|c s IH]; simpl; [done|].
  by rewrite lower_char_not_upper, IH.
Qed.

Lemma remove_punctuation_ok s :
  all_chars (λ c, negb (is_upper c)) s = true →
  all_chars (λ c, negb (is_upper c) && negb (is_punctuation c))
            (remove_punctuation s) = true.
Proof.
  induction s as [|c s IH]; simpl; [done|].
  rewrite andb_true_iff. intros [Hc Hs].
  destruct (is_punctuation c) eqn:Hp; simpl; [by apply IH|].
  by rewrite Hc, Hp, IH.
Qed.

End TextFacts.

(** ** Tokenizers *)

Section Tokenize.
Import Text TextFacts.

Lemma string_app_cons c (s1 s2 : string) :
  (String c s1 ++ s2)%string = String c (s1 ++ s2).
Proof. reflexivity. Qed.

Lemma string_app_nil_r (s : string) : (s ++ EmptyString)%string = s.
Proof.
  induction s as [|c s IH]; [done|]. by rewrite string_app_cons, IH.
Qed.

Lemma string_app_assoc (s1 s2 s3 : string) :
  ((s1 ++ s2) ++ s3)%string = (s1 ++ (s2 ++ s3))%string.
Proof.
  induction s1 as [|c s1 IH]; [done|]. by rewrite !string_app_cons, IH.
Qed.

Lemma string_of_list_app l1 l2 :
  string_of_list_ascii (l1 ++ l2)
  = (string_of_list_ascii l1 ++ string_of_list_ascii l2)%string.
Proof.
  induction l1 as [|c l1 IH]; [done|].
  simpl. by rewrite string_app_cons, IH.
Qed.

Lemma concat_empty_cons (x : string) (xs : list string) :
  String.concat EmptyString (x :: xs)
  = (x ++ String.concat EmptyString xs)%string.
Proof.
  destruct xs as [|y ys]; [|done].
  change (x = (x ++ EmptyString)%string). by rewrite string_app_nil_r.
Qed.

Lemma concat_flush cur rest :
  String.concat EmptyString (flush cur rest)
  = (string_of_list_ascii (rev cur)
     ++ String.concat EmptyString rest)%string.
Proof. destruct cur; [done|]. unfold flush. apply concat_empty_cons. Qed.

(** Gluing the tokens back gives the input without its whitespace. *)
Lemma concat_split_from cur s :
  String.concat EmptyString (split_from cur s)
  = (string_of_list_ascii (rev cur)
     ++ keep (λ c, negb (is_space c)) s)%string.
Proof.
  revert cur; induction s as [|c s IH]; intros cur; simpl.
  - by rewrite concat_flush.
  - destruct (is_space c); simpl.
    + by rewrite concat_flush, IH.
    + rewrite IH. simpl. rewrite string_of_list_app, string_app_assoc.
      done.
Qed.

Lemma tokenize_tokens text : Forall word (Browser.tokenize text).
Proof.
  unfold Browser.tokenize, split.
  apply (split_from_tokens
           (λ c, negb (is_upper c) && negb (is_punctuation c))); [done|].
  apply remove_punctuation_ok, lower_no_upper.
Qed.

Lemma tokenize_concat text :
  String.concat EmptyString (Browser.tokenize text)
  = keep (λ c, negb (is_space c)) (remove_punctuation (lower text)).
Proof. unfold Browser.tokenize, split. by rewrite concat_split_from. Qed.

Lemma tokenize_word t : word t → Browser.tokenize t = [t].
Proof.
  intros Ht. unfold Browser.tokenize.
  rewrite lower_clean, remove_punctuation_clean by apply Ht.
  by apply split_word.
Qed.

Lemma tokenize_space s1 s2 :
  Browser.tokenize (s1 ++ String " " s2)
  = Browser.tokenize s1 ++ Browser.tokenize s2.
Proof.
  unfold Browser.tokenize.
  rewrite lower_app. simpl lower.
  rewrite remove_punctuation_app.
  change (lower_char " ") with " "%char. simpl remove_punctuation.
  by apply split_sep.
Qed.

(** Clean words joined by single spaces come back unchanged, whether
    or not they are stopwords. *)
Lemma tokenize_join ws :
  Forall word ws → Browser.tokenize (String.concat " " ws) = ws.
Proof.
  induction 1 as [|w ws Hw Hws IH]; [done|].
  destruct ws as [|w' ws]; [by apply tokenize_word|].
  change (String.concat " " (w :: w' :: ws))
    with (w ++ String " " (String.concat " " (w' :: ws)))%string.
  by rewrite tokenize_space, IH, tokenize_word.
Qed.

End Tokenize.

(** C5 (as amended).  The browser's [tokenize] returns the empty sequence
    on the empty string and [a; b; c] on "A, B. C!"; on every text its
    tokens are non-empty runs free of upper-case letters, punctuation and
    whitespace, and glued together they are exactly the lower-cased text
    without its punctuation and whitespace; clean words joined by spaces
    come back unchanged, stopwords included.  The index builder's
    [tokenize] is a different function: it is the browser's followed by
    the removal of the builder's stopwords, and returns [b; c] on
    "A, B. C!". *)
Theorem tokenize_contract :
  Browser.tokenize EmptyString = []
  ∧ Browser.tokenize "A, B. C!" = ["a"; "b"; "c"]
  ∧ (∀ text, Forall word (Browser.tokenize text))
  ∧ (∀ text,
       String.concat EmptyString (Browser.tokenize text)
       = Text.keep (λ c, negb (Text.is_space c))
           (Text.remove_punctuation (Text.lower text)))
  ∧ (∀ ws, Forall word ws →
           Browser.tokenize (String.concat " " ws) = ws)
  ∧ (∀ text,
       IndexBuilder.tokenize text
       = filter (λ t, t ∉ IndexBuilder.STOPWORDS) (Browser.tokenize text))
  ∧ IndexBuilder.tokenize "A, B. C!" = ["b"; "c"].
Proof.
  split; [reflexivity|].
  split; [reflexivity|].
  split; [apply tokenize_tokens|].
  split; [apply tokenize_concat|].
  split; [apply tokenize_join|].
  split; [reflexivity|].
  vm_compute. reflexivity.
Qed.

Lemma tokenize_contract_witness :
  Browser.tokenize (String.concat " " ["the"; "red"; "hat"])
  = ["the"; "red"; "hat"].
Proof.
  apply tokenize_contract.
  repeat constructor; discriminate.
Defined.

(** C5, counterexample: the index builder's tokenizer drops the stopword
    "a", so the two programs do not share a tokenizer for which
    "A, B. C!" gives [a; b; c]. *)
Lemma tokenize_builder_drops_stopword :
  IndexBuilder.tokenize "A, B. C!" ≠ ["a"; "b"; "c"].
Proof. vm_compute. discriminate. Qed.

(** ** Candidate filtering *)

Section Filtering.
Import Browser.

Lemma has_posting_urls index t url :
  dict_shaped index → has_posting index t url → url ∈ posting_urls index t.
Proof.
  intros Hd (e & He & Hc). unfold posting_urls. rewrite He.
  destruct e as [p|l|]; simpl in Hc.
  - by apply bool_decide_eq_true in Hc.
  - by specialize (Hd _ _ He).
  - by apply bool_decide_eq_true in Hc.
Qed.

Lemma elem_of_any_urls tokens index url :
  url ∈ any_urls tokens index
  ↔ ∃ t, t ∈ tokens ∧ url ∈ posting_urls index t.
Proof.
  unfold any_urls. rewrite elem_of_union_list. split.
  - intros (X & HX & Hu). apply list_elem_of_fmap in HX as (t & -> & Ht).
    eauto.
  - intros (t & Ht & Hu). exists (posting_urls index t). split; [|done].
    apply list_elem_of_fmap. eauto.
Qed.

Lemma filter_any_loop (tokens : list string) (index : gmap string entry)
    (docs : gset string) :
  dict_shaped index →
  foldM (λ (docs : gset string) t,
           match index !! t with
           | Some e => ks ← keys e; Ok (docs ∪ ks)
           | None => Ok docs
           end) docs tokens
  = Ok (docs ∪ any_urls tokens index).
Proof.
  intros Hd. revert docs; induction tokens as [|t ts IH]; intros docs.
  - simpl. f_equal. unfold any_urls. simpl. by rewrite (right_id_L ∅ (∪)).
  - simpl. unfold any_urls in *. simpl. unfold posting_urls at 1.
    destruct (index !! t) as [[p|l|]|] eqn:E; simpl.
    + rewrite IH. f_equal. by rewrite (assoc_L (∪)).
    + by specialize (Hd _ _ E).
    + rewrite IH. f_equal. by rewrite (assoc_L (∪)).
    + rewrite IH. f_equal. by rewrite (left_id_L ∅ (∪)).
Qed.

Lemma filter_any_token_dict tokens index :
  dict_shaped index →
  filter_any_token tokens index = Ok (any_urls tokens index).
Proof.
  intros Hd. unfold filter_any_token. rewrite filter_any_loop by done.
  f_equal. by rewrite (left_id_L ∅ (∪)).
Qed.

(** On a feature index the first query token found raises. *)
Lemma filter_any_token_list tokens index :
  list_shaped index →
  (∃ t, t ∈ tokens ∧ is_Some (index !! t)) →
  filter_any_token tokens index = Raise AttributeError.
Proof.
  intros Hl. unfold filter_any_token. generalize (∅ : gset string).
  induction tokens as [|t ts IH]; intros docs (t' & Ht' & Hsome).
  - by apply elem_of_nil in Ht'.
  - simpl. destruct (index !! t) as [e|] eqn:E.
    + specialize (Hl _ _ E). by destruct e.
    + simpl. apply IH. exists t'. split; [|done].
      apply elem_of_cons in Ht' as [->|]; [|done].
      rewrite E in Hsome. by destruct Hsome.
Qed.

Lemma filter_any_token_absent tokens (index : gmap string entry) :
  (∀ t, t ∈ tokens → index !! t = None) →
  filter_any_token tokens index = Ok ∅.
Proof.
  unfold filter_any_token. generalize (∅ : gset string).
  induction tokens as [|t ts IH]; intros docs Habs; [done|].
  rewrite foldM_cons, Habs by left. rewrite bind_Ok. apply IH.
  intros; apply Habs; by right.
Qed.

Lemma load_feature_index_list_shaped file :
  list_shaped (load_feature_index file).
Proof.
  intros t e He. unfold load_feature_index in He.
  apply lookup_fmap_Some in He as (l & <- & _). done.
Qed.

(** On a feature index as the builder writes it, [filter_any_token]
    returns (the empty set) only when no query token is in the index. *)
Lemma filter_any_token_feature_index tokens file :
  filter_any_token tokens (load_feature_index file)
  = if decide (Exists (λ t, is_Some (file !! t)) tokens)
    then Raise AttributeError else Ok ∅.
Proof.
  case_decide as Hex.
  - apply filter_any_token_list; [apply load_feature_index_list_shaped|].
    apply Exists_exists in Hex as (t & Ht & Hsome). exists t.
    split; [done|]. unfold load_feature_index. rewrite lookup_fmap.
    by apply fmap_is_Some.
  - apply filter_any_token_absent. intros t Ht.
    unfold load_feature_index. rewrite lookup_fmap.
    destruct (file !! t) as [l|] eqn:E; [|done].
    destruct Hex. apply Exists_exists. exists t. by rewrite E.
Qed.

Lemma filter_all_loop (tokens : list string) (index : gmap string entry)
    (doc_sets : list (gset string)) :
  (∀ t, t ∈ tokens → index !! t = None) →
  foldM (λ (doc_sets : list (gset string)) t,
           match index !! t with
           | Some e => ks ← keys e; Ok (doc_sets ++ [ks])
           | None => Ok doc_sets
           end) doc_sets tokens
  = Ok doc_sets.
Proof.
  revert doc_sets; induction tokens as [|t ts IH]; intros ds Habs; [done|].
  simpl. rewrite Habs by left. simpl. apply IH.
  intros; apply Habs; by right.
Qed.

Lemma filter_all_loop_dict (tokens : list string)
    (index : gmap string entry) (doc_sets : list (gset string)) :
  dict_shaped index →
  foldM (λ (doc_sets : list (gset string)) t,
           match index !! t with
           | Some e => ks ← keys e; Ok (doc_sets ++ [ks])
           | None => Ok doc_sets
           end) doc_sets tokens
  = Ok (doc_sets ++ present_sets tokens index).
Proof.
  intros Hd. revert doc_sets.
  induction tokens as [|t ts IH]; intros ds; simpl.
  - by rewrite app_nil_r.
  - unfold present_sets in *. simpl. unfold posting_urls at 1.
    destruct (index !! t) as [[p|l|]|] eqn:E; simpl.
    + by rewrite IH, <- app_assoc.
    + by specialize (Hd _ _ E).
    + by rewrite IH, <- app_assoc.
    + apply IH.
Qed.

Lemma elem_of_intersection_list (first : gset string) rest url :
  url ∈ intersection first rest ↔ url ∈ first ∧ ∀ X, X ∈ rest → url ∈ X.
Proof.
  unfold intersection. revert first.
  induction rest as [|Y rest IH]; intros first; simpl.
  - split; [intros H; split; [done|] | tauto].
    intros X HX. by apply elem_of_nil in HX.
  - rewrite IH, elem_of_intersection. split.
    + intros [[H1 H2] H3]. split; [done|].
      intros X HX. apply elem_of_cons in HX as [->|HX]; auto.
    + intros [H1 H2]. split; [split; [done|] |].
      * apply H2. by left.
      * intros X HX. apply H2. by right.
Qed.

(** AND semantics: a url is kept iff some query token is in the index
    and the url is listed under every query token that is. *)
Lemma filter_all_tokens_dict (tokens : list string)
    (index : gmap string entry) :
  dict_shaped index →
  ∃ strict,
    filter_all_tokens tokens index = Ok strict
    ∧ ∀ url, url ∈ strict
             ↔ (∃ t, t ∈ tokens ∧ is_Some (index !! t))
               ∧ (∀ t, t ∈ tokens → is_Some (index !! t) →
                       url ∈ posting_urls index t).
Proof.
  intros Hd. unfold filter_all_tokens.
  rewrite filter_all_loop_dict by done. simpl.
  assert (Hmem : ∀ X, X ∈ present_sets tokens index
                 ↔ ∃ t, t ∈ tokens ∧ is_Some (index !! t)
                        ∧ X = posting_urls index t).
  { intros X. unfold present_sets. rewrite list_elem_of_omap. split.
    - intros (t & Ht & HX). exists t. split; [done|].
      destruct (index !! t); [|done]. injection HX as <-. eauto.
    - intros (t & Ht & [e He] & ->). exists t. split; [done|].
      by rewrite He. }
  destruct (present_sets tokens index) as [|first rest] eqn:E.
  - exists ∅. split; [done|]. intros url. split.
    + intros H. by apply not_elem_of_empty in H.
    + intros [(t & Ht & Hsome) _]. exfalso.
      assert (H : posting_urls index t ∈ []) by (apply Hmem; eauto).
      by apply elem_of_nil in H.
  - exists (intersection first rest). split; [done|]. intros url.
    rewrite elem_of_intersection_list. split.
    + intros [H1 H2]. split.
      * destruct (proj1 (Hmem first)) as (t & Ht & Hs & _); [by left|].
        eauto.
      * intros t Ht Hs.
        assert (H : posting_urls index t ∈ first :: rest)
          by (apply Hmem; eauto).
        apply elem_of_cons in H as [->|H]; auto.
    + intros [_ H]. split.
      * destruct (proj1 (Hmem first)) as (t & Ht & Hs & ->); [by left|].
        by apply H.
      * intros X HX.
        destruct (proj1 (Hmem X)) as (t & Ht & Hs & ->); [by right|].
        by apply H.
Qed.

End Filtering.

(** C9.  [filter_all_tokens] returns the empty set on the empty token
    list, and on every token list none of whose tokens occurs in the
    index. *)
Theorem filter_all_tokens_nothing
    (tokens : list string) (index : gmap string Browser.entry) :
  (∀ t, t ∈ tokens → index !! t = None) →
  Browser.filter_all_tokens [] index = Ok ∅
  ∧ Browser.filter_all_tokens tokens index = Ok ∅.
Proof.
  intros Habs. split; [reflexivity|].
  unfold Browser.filter_all_tokens. by rewrite filter_all_loop.
Qed.

Lemma filter_all_tokens_nothing_witness :
  Browser.filter_all_tokens ["green"; "scarf"]
    (Browser.load_text_index {[ "beanie" := {[ "/1" := [1] ]} ]}) = Ok ∅.
Proof.
  apply (filter_all_tokens_nothing ["green"; "scarf"]).
  intros t Ht.
  repeat (apply elem_of_cons in Ht as [->|Ht]); try reflexivity.
  by apply elem_of_nil in Ht.
Defined.

(** C1, evaluated at the failing input.  The brand index written by the
    builder maps the token [nike] to the list of urls [/p/1]; on the
    query [nike] both [filter_any_token] on that index and
    [filter_documents] raise [AttributeError] instead of returning the
    set of urls. *)
Theorem filter_any_token_feature_index_raises :
  nike_brand_index = {[ "nike" := Browser.Urls ["/p/1"] ]}
  ∧ Browser.filter_any_token ["nike"] nike_brand_index
    = Raise AttributeError
  ∧ Browser.filter_documents nike_globals ["nike"] = Raise AttributeError.
Proof. vm_compute. repeat split; reflexivity. Qed.

(** C6 (as amended).  When no entry of the four wired indexes is a bare
    list of urls, [filter_documents] returns exactly the union of
    [filter_any_token] on the title, description, brand and origin
    indexes with [filter_all_tokens] on the title index; every document
    with at least one query token in a wired index is a candidate, and
    for a non-empty token list so is every document whose title contains
    all query tokens. *)
Theorem filter_documents_union (g : Browser.globals) (tokens : list string) :
  Forall dict_shaped (Browser.wired g) →
  ∃ in_title in_description in_brand in_origin strict candidates,
    Browser.filter_any_token tokens (Browser.title_index g) = Ok in_title
    ∧ Browser.filter_any_token tokens (Browser.description_index g)
      = Ok in_description
    ∧ Browser.filter_any_token tokens (Browser.brand_index g) = Ok in_brand
    ∧ Browser.filter_any_token tokens (Browser.origin_index g) = Ok in_origin
    ∧ Browser.filter_all_tokens tokens (Browser.title_index g) = Ok strict
    ∧ Browser.filter_documents g tokens = Ok candidates
    ∧ candidates
      = in_title ∪ in_description ∪ in_brand ∪ in_origin ∪ strict
    ∧ (∀ index t url,
         index ∈ Browser.wired g → t ∈ tokens →
         has_posting index t url → url ∈ candidates)
    ∧ (tokens ≠ [] →
       ∀ url, (∀ t, t ∈ tokens →
                    has_posting (Browser.title_index g) t url) →
              url ∈ candidates).
Proof.
  intros Hw. unfold Browser.wired in Hw.
  apply Forall_cons in Hw as [Ht Hw]. apply Forall_cons in Hw as [Hd Hw].
  apply Forall_cons in Hw as [Hb Hw]. apply Forall_cons in Hw as [Ho _].
  destruct (filter_all_tokens_dict tokens _ Ht) as (strict & Hall & _).
  exists (any_urls tokens (Browser.title_index g)),
         (any_urls tokens (Browser.description_index g)),
         (any_urls tokens (Browser.brand_index g)),
         (any_urls tokens (Browser.origin_index g)), strict.
  eexists. rewrite !filter_any_token_dict by done.
  do 4 (split; [reflexivity|]). split; [exact Hall|].
  assert (Hany : ∀ index t url,
            index ∈ Browser.wired g → t ∈ tokens →
            has_posting index t url →
            url ∈ any_urls tokens (Browser.title_index g)
                  ∪ any_urls tokens (Browser.description_index g)
                  ∪ any_urls tokens (Browser.brand_index g)
                  ∪ any_urls tokens (Browser.origin_index g) ∪ strict).
  { intros index t url Hin Htok Hpost.
    assert (Hds : dict_shaped index).
    { unfold Browser.wired in Hin.
      repeat (apply elem_of_cons in Hin as [->|Hin]); try done.
      by apply elem_of_nil in Hin. }
    assert (Hu : url ∈ any_urls tokens index).
    { apply elem_of_any_urls. exists t. split; [done|].
      by apply has_posting_urls. }
    unfold Browser.wired in Hin. rewrite !elem_of_union.
    repeat (apply elem_of_cons in Hin as [->|Hin]); auto 10.
    by apply elem_of_nil in Hin. }
  split; [|split; [reflexivity|split; [exact Hany|]]].
  - unfold Browser.filter_documents, Browser.wired. simpl.
    rewrite !filter_any_token_dict by done. simpl. rewrite Hall. simpl.
    by rewrite (left_id_L ∅ (∪)).
  - intros Hne url Hall'. destruct tokens as [|t ts]; [done|].
    apply (Hany (Browser.title_index g) t); [by left | by left |].
    apply Hall'. by left.
Qed.

Lemma filter_documents_union_witness :
  Forall dict_shaped (Browser.wired beanie_globals)
  ∧ ∃ candidates,
      Browser.filter_documents beanie_globals ["red"; "beanie"]
      = Ok candidates
      ∧ "/1" ∈ candidates.
Proof.
  assert (Hw : Forall dict_shaped (Browser.wired beanie_globals)).
  { repeat constructor; apply (bool_decide_unpack _); vm_compute;
      reflexivity. }
  split; [exact Hw|].
  destruct (filter_documents_union beanie_globals ["red"; "beanie"] Hw)
    as (a & b & c & d & s & cands & _ & _ & _ & _ & _ & Hf & _ & _ & Hall).
  exists cands. split; [exact Hf|].
  apply Hall; [done|].
  intros t Ht.
  exists (Browser.Postings
            {[ "/1" := [if decide (t = "red") then 0 else 1] ]}).
  repeat (apply elem_of_cons in Ht as [->|Ht]);
    [split; reflexivity | split; reflexivity | by apply elem_of_nil in Ht].
Defined.

(** C6, counterexample: on the empty query the title of [/1] trivially
    contains all query tokens, yet the candidate set is empty. *)
Lemma filter_documents_empty_query :
  ¬ (∀ tokens url,
       (∀ t, t ∈ tokens →
             has_posting (Browser.title_index beanie_globals) t url) →
       ∃ candidates,
         Browser.filter_documents beanie_globals tokens = Ok candidates
         ∧ url ∈ candidates).
Proof.
  intros H. destruct (H [] "/1") as (cands & Hf & Hin).
  - intros t Ht. by apply elem_of_nil in Ht.
  - assert (He : Browser.filter_documents beanie_globals [] = Ok ∅)
      by reflexivity.
    rewrite He in Hf. injection Hf as <-. by apply not_elem_of_empty in Hin.
Qed.

(** ** Composite score *)

Section Scoring.
Import Browser.
Local Open Scope R_scope.

Lemma term_frequency_cons index t ts doc :
  term_frequency index (t :: ts) doc
  = (posting_length index doc t + term_frequency index ts doc)%nat.
Proof. reflexivity. Qed.

Lemma positional_scorable doc index : positional index → scorable doc index.
Proof.
  intros Hp t e He. specialize (Hp t e He). simpl in *. by rewrite Hp.
Qed.

Lemma add_tf_scorable w index t doc score :
  scorable doc index →
  add_tf w index t doc score
  = Ok (score + w * INR (posting_length index doc t)).
Proof.
  intros Hs. unfold add_tf, posting_length.
  destruct (index !! t) as [e|] eqn:E.
  - specialize (Hs _ _ E). simpl in Hs. destruct e as [p|l|n m r]; simpl in *.
    + case_bool_decide as Hin.
      * apply elem_of_dom in Hin as [positions Hl]. by rewrite Hl.
      * apply not_elem_of_dom in Hin. rewrite Hin. simpl. f_equal. lra.
    + apply negb_true_iff in Hs. rewrite Hs. f_equal. lra.
    + apply negb_true_iff in Hs. rewrite Hs. f_equal. lra.
  - simpl. f_equal. lra.
Qed.

Lemma compute_score_loop g doc tokens score :
  scorable doc (title_index g) → scorable doc (description_index g) →
  scorable doc (reviews_index g) →
  foldM (λ (score : R) t,
           score ← add_tf 3 (title_index g) t doc score;
           score ← add_tf 1 (description_index g) t doc score;
           add_tf 0.5 (reviews_index g) t doc score) score tokens
  = Ok (score
        + 3 * INR (term_frequency (title_index g) tokens doc)
        + 1 * INR (term_frequency (description_index g) tokens doc)
        + 0.5 * INR (term_frequency (reviews_index g) tokens doc)).
Proof.
  intros Ht Hd Hr. revert score.
  induction tokens as [|t ts IH]; intros score.
  - simpl. f_equal. lra.
  - rewrite foldM_cons.
    do 3 (rewrite add_tf_scorable by done; rewrite bind_Ok; cbv beta).
    rewrite IH. f_equal.
    rewrite !term_frequency_cons, !plus_INR. lra.
Qed.

Lemma compute_score_ok g doc tokens stats :
  scorable doc (title_index g) → scorable doc (description_index g) →
  scorable doc (reviews_index g) →
  is_Ok (compute_score g doc tokens stats).
Proof.
  intros Ht Hd Hr. unfold compute_score.
  rewrite compute_score_loop by done. rewrite bind_Ok. by eexists.
Qed.

Lemma exact_match_score_spec (tokens title_tokens : list string) :
  exact_match_score tokens title_tokens
  = if decide (tokens ⊆ title_tokens) then 1%nat else 0%nat.
Proof.
  unfold exact_match_score.
  case_bool_decide as H; case_decide as H'; try done; exfalso.
  - apply H'. intros t Ht.
    assert (t ∈ (list_to_set title_tokens : gset string))
      by (apply H; by apply elem_of_list_to_set).
    by apply elem_of_list_to_set in H0.
  - apply H. intros t Ht. apply elem_of_list_to_set.
    apply H'. by apply elem_of_list_to_set in Ht.
Qed.

End Scoring.

(** C3.  Whenever the title, description and reviews indexes can be read
    for the document (every entry listing it is a posting dict, as in a
    text index), [compute_score] returns exactly 3 times the title term
    frequency plus 1 times the description term frequency plus 0.5 times
    the review-field term frequency plus 5 times the exact-title-match
    indicator plus 0.1 times the review count of the metadata record; the
    term frequency of a field is the posting-list length in its index
    summed over the query tokens, and the indicator is 1 exactly when
    every query token is a title token. *)
Theorem compute_score_linear (g : Browser.globals) (doc : string)
    (tokens : list string) (stats : Browser.metadata) :
  scorable doc (Browser.title_index g) →
  scorable doc (Browser.description_index g) →
  scorable doc (Browser.reviews_index g) →
  Browser.compute_score g doc tokens stats
  = Ok (3 * INR (term_frequency (Browser.title_index g) tokens doc)
        + 1 * INR (term_frequency (Browser.description_index g) tokens doc)
        + 0.5 * INR (term_frequency (Browser.reviews_index g) tokens doc)
        + 5 * INR (if decide (tokens ⊆ Browser.title_tokens stats)
                   then 1 else 0)
        + 0.1 * INR (Browser.review_count stats))%R.
Proof.
  intros Ht Hd Hr. unfold Browser.compute_score.
  rewrite compute_score_loop by done. rewrite bind_Ok.
  rewrite exact_match_score_spec. f_equal. lra.
Qed.

Lemma compute_score_linear_witness :
  Browser.compute_score review_text_globals "/1" ["red"; "beanie"]
    red_beanie_stats
  = Ok (3 * 2 + 1 * 2 + 0.5 * 3 + 5 * 1 + 0.1 * 2)%R
  ∧ Browser.compute_score beanie_globals "/1" ["red"; "beanie"]
      red_beanie_stats
    = Ok (3 * 2 + 1 * 2 + 0.5 * 0 + 5 * 1 + 0.1 * 2)%R.
Proof.
  split.
  - rewrite compute_score_linear;
      try (apply (bool_decide_unpack _); vm_compute; reflexivity).
    f_equal.
    change (term_frequency (Browser.title_index review_text_globals)
              ["red"; "beanie"] "/1") with 2%nat.
    change (term_frequency (Browser.description_index review_text_globals)
              ["red"; "beanie"] "/1") with 2%nat.
    change (term_frequency (Browser.reviews_index review_text_globals)
              ["red"; "beanie"] "/1") with 3%nat.
    case_decide as Hsub; [simpl; lra|].
    exfalso. apply Hsub. done.
  - rewrite compute_score_linear;
      try (apply (bool_decide_unpack _); vm_compute; reflexivity).
    apply f_equal.
    change (term_frequency (Browser.title_index beanie_globals)
              ["red"; "beanie"] "/1") with 2%nat.
    change (term_frequency (Browser.description_index beanie_globals)
              ["red"; "beanie"] "/1") with 2%nat.
    change (term_frequency (Browser.reviews_index beanie_globals)
              ["red"; "beanie"] "/1") with 0%nat.
    case_decide as Hsub; [simpl; lra|].
    exfalso. apply Hsub. done.
Defined.

(** ** BM25 *)

Section BM25.
Import Browser.
Local Open Scope R_scope.

Lemma py_div_ok x y : y ≠ 0 → py_div x y = Ok (x / y).
Proof. intros Hy. unfold py_div. by destruct (Req_dec_T y 0). Qed.

Lemma py_div_zero x : py_div x 0 = Raise ZeroDivisionError.
Proof. unfold py_div. by destruct (Req_dec_T 0 0). Qed.

Lemma math_log_ok x : 0 < x → math_log x = Ok (ln x).
Proof. intros Hx. unfold math_log. by destruct (Rlt_dec 0 x). Qed.

(** Where the formula is defined, the code returns it. *)
Lemma bm25_score_ok tf df doc_len avgdl N :
  df + 0.5 ≠ 0 →
  0 < 1 + (N - df + 0.5) / (df + 0.5) →
  avgdl ≠ 0 →
  tf + saturation doc_len avgdl ≠ 0 →
  bm25_score tf df doc_len avgdl N = Ok (bm25_value tf df doc_len avgdl N).
Proof.
  intros Hdf Hlog Havg Hden. unfold bm25_score, bm25_score_with.
  rewrite (py_div_ok (N - df + 0.5)) by done. rewrite bind_Ok. cbv beta.
  rewrite math_log_ok by done. rewrite bind_Ok. cbv beta.
  rewrite (py_div_ok (0.75 * doc_len)) by done. rewrite bind_Ok. cbv beta.
  rewrite py_div_ok by done. reflexivity.
Qed.

Lemma div_mul_cancel (x d : R) : d ≠ 0 → x / d * d = x.
Proof. intros Hd. by field. Qed.

Lemma log_argument_pos df N :
  0 <= df → 0 <= N → 0 < 1 + (N - df + 0.5) / (df + 0.5).
Proof.
  intros Hdf HN.
  assert (Hd : df + 0.5 ≠ 0) by lra.
  pose proof (div_mul_cancel (N - df + 0.5) (df + 0.5) Hd).
  nra.
Qed.

(** A zero average length raises, whatever the other arguments. *)
Lemma bm25_score_avgdl_zero tf df doc_len N :
  0 <= df → 0 <= N →
  bm25_score tf df doc_len 0 N = Raise ZeroDivisionError.
Proof.
  intros Hdf HN. unfold bm25_score, bm25_score_with.
  rewrite (py_div_ok (N - df + 0.5)) by lra. rewrite bind_Ok. cbv beta.
  rewrite math_log_ok.
  - rewrite bind_Ok. cbv beta. by rewrite py_div_zero.
  - by apply log_argument_pos.
Qed.

Lemma idf_pos df N : 0 <= df → df <= N → 0 < idf df N.
Proof.
  intros Hdf HN. unfold idf. rewrite <- ln_1.
  apply ln_increasing; [lra|].
  assert (0 < (N - df + 0.5) / (df + 0.5))
    by (apply Rdiv_lt_0_compat; lra).
  lra.
Qed.

Lemma saturation_pos doc_len avgdl :
  0 <= doc_len → 0 < avgdl → 0 < saturation doc_len avgdl.
Proof.
  intros Hl Ha. unfold saturation.
  assert (0 <= 0.75 * doc_len / avgdl).
  { apply Rmult_le_pos; [lra|]. left. by apply Rinv_0_lt_compat. }
  lra.
Qed.

Lemma ratio_increasing (k x y : R) :
  0 < k → 0 <= x → x < y → x / (x + k) < y / (y + k).
Proof.
  intros Hk Hx Hxy.
  apply (Rmult_lt_reg_r ((x + k) * (y + k))); [nra|].
  replace (x / (x + k) * ((x + k) * (y + k))) with (x * (y + k))
    by (field; lra).
  replace (y / (y + k) * ((x + k) * (y + k))) with (y * (x + k))
    by (field; lra).
  nra.
Qed.

(** [bm25] on an empty length table: the mean length divides by
    zero before any token is looked at. *)
Lemma bm25_no_documents tokens index (doc_lengths : gmap string Z) :
  size doc_lengths = 0%nat →
  bm25 tokens index doc_lengths = Raise ZeroDivisionError.
Proof.
  intros Hsize. unfold bm25. rewrite Hsize. simpl INR.
  by rewrite py_div_zero.
Qed.

(** With a zero mean length, scoring any posting raises. *)
Lemma bm25_posting_avgdl_zero (doc_lengths : gmap string Z) (df N : nat)
    (scores : gmap string R) (item : string * list nat) :
  bm25_posting doc_lengths df N 0 scores item = Raise ZeroDivisionError.
Proof.
  destruct item as [url positions]. unfold bm25_posting.
  by rewrite bm25_score_avgdl_zero by apply pos_INR.
Qed.

Lemma bm25_postings_avgdl_zero (doc_lengths : gmap string Z)
    (df N : nat) (p : gmap string (list nat)) (scores : gmap string R) :
  foldM (bm25_posting doc_lengths df N 0) scores (map_to_list p)
  = if decide (p = ∅) then Ok scores else Raise ZeroDivisionError.
Proof.
  case_decide as Hp.
  - subst p. by rewrite map_to_list_empty.
  - destruct (map_to_list p) as [|[url positions] rest] eqn:E.
    + by apply map_to_list_empty_iff in E.
    + by rewrite foldM_cons, bm25_posting_avgdl_zero.
Qed.

Lemma bm25_token_avgdl_zero index (doc_lengths : gmap string Z) N
    (scores : gmap string R) t :
  positional index →
  bm25_token index doc_lengths N 0 scores t
  = if decide (posting_urls index t = ∅) then Ok scores
    else Raise ZeroDivisionError.
Proof.
  intros Hpos. unfold bm25_token, posting_urls.
  destruct (index !! t) as [e|] eqn:E; [|by rewrite decide_True].
  specialize (Hpos _ _ E). destruct e as [p| |]; try done.
  cbv zeta. rewrite bm25_postings_avgdl_zero.
  case_decide as Hp.
  - subst p. by rewrite dom_empty_L, decide_True.
  - rewrite decide_False; [done|]. intros Hd. by apply dom_empty_inv_L in Hd.
Qed.

Lemma bm25_loop_avgdl_zero tokens index (doc_lengths : gmap string Z) N
    (scores : gmap string R) :
  positional index →
  foldM (bm25_token index doc_lengths N 0) scores tokens
  = if decide (Exists (λ t, posting_urls index t ≠ ∅) tokens)
    then Raise ZeroDivisionError else Ok scores.
Proof.
  intros Hpos. induction tokens as [|t ts IH].
  - rewrite decide_False; [done|]. by intros H%Exists_nil.
  - rewrite foldM_cons, bm25_token_avgdl_zero by done.
    destruct (decide (posting_urls index t = ∅)) as [Hu|Hu].
    + rewrite bind_Ok, IH.
      destruct (decide (Exists _ ts)) as [H1|H1].
      * by rewrite decide_True by (by right).
      * rewrite decide_False; [done|].
        intros H2. apply Exists_cons in H2 as [H2|H2]; done.
    + rewrite bind_Raise. by rewrite decide_True by (by left).
Qed.

End BM25.

(** C8 (as amended).  For 0 <= df <= N, doc_len >= 0 and avgdl > 0, the
    BM25 term score is defined on every tf >= 0 and strictly increasing
    there: 0 <= tf1 < tf2 implies
    bm25_score(tf1, ...) < bm25_score(tf2, ...). *)
Theorem bm25_score_increasing (tf1 tf2 df doc_len avgdl N : R) :
  (0 <= tf1 → tf1 < tf2 → 0 <= df → df <= N → 0 <= doc_len → 0 < avgdl →
   ∃ s1 s2,
     Browser.bm25_score tf1 df doc_len avgdl N = Ok s1
     ∧ Browser.bm25_score tf2 df doc_len avgdl N = Ok s2
     ∧ s1 < s2)%R.
Proof.
  intros Htf1 Hlt Hdf HN Hlen Havg.
  pose proof (idf_pos df N Hdf HN) as Hidf.
  pose proof (saturation_pos doc_len avgdl Hlen Havg) as Hsat.
  assert (Hlog : (0 < 1 + (N - df + 0.5) / (df + 0.5))%R).
  { assert (0 < (N - df + 0.5) / (df + 0.5))%R
      by (apply Rdiv_lt_0_compat; lra).
    lra. }
  exists (bm25_value tf1 df doc_len avgdl N),
         (bm25_value tf2 df doc_len avgdl N).
  rewrite !bm25_score_ok by lra. do 2 (split; [reflexivity|]).
  unfold bm25_value.
  apply Rmult_lt_compat_l; [done|].
  pose proof (ratio_increasing _ tf1 tf2 Hsat Htf1 Hlt) as Hr.
  unfold Rdiv in *. rewrite !(Rmult_comm _ (1.5 + 1)), !Rmult_assoc.
  apply Rmult_lt_compat_l; [lra | exact Hr].
Qed.

Lemma bm25_score_increasing_witness :
  (∃ s1 s2,
     Browser.bm25_score 1 1 3 4 2 = Ok s1
     ∧ Browser.bm25_score 2 1 3 4 2 = Ok s2
     ∧ s1 < s2)%R.
Proof. apply bm25_score_increasing; lra. Defined.

(** C8, counterexample: with more postings than documents (df = 3,
    N = 1) the idf factor is negative and the score decreases from tf = 1
    to tf = 2, although avgdl = 1 and both denominators are non-zero. *)
Lemma bm25_score_decreasing :
  (∃ s1 s2,
     Browser.bm25_score 1 3 1 1 1 = Ok s1
     ∧ Browser.bm25_score 2 3 1 1 1 = Ok s2
     ∧ s2 < s1)%R.
Proof.
  exists (bm25_value 1 3 1 1 1), (bm25_value 2 3 1 1 1).
  assert (Hlog : (1 + (1 - 3 + 0.5) / (3 + 0.5) = 4 / 7)%R) by lra.
  rewrite !bm25_score_ok; unfold saturation; try lra.
  do 2 (split; [reflexivity|]).
  unfold bm25_value, idf, saturation. rewrite Hlog.
  assert (Hneg : (ln (4 / 7) < 0)%R).
  { rewrite <- ln_1. apply ln_increasing; lra. }
  replace (1 * (1.5 + 1) / (1 + 1.5 * (1 - 0.75 + 0.75 * 1 / 1)))%R
    with 1%R by lra.
  replace (2 * (1.5 + 1) / (2 + 1.5 * (1 - 0.75 + 0.75 * 1 / 1)))%R
    with (10 / 7)%R by lra.
  nra.
Qed.

(** C2 (as amended).  [bm25] has no guard against a zero divisor.  When
    [doc_lengths] is empty (N = 0) it raises [ZeroDivisionError], for
    every token list and index.  When [doc_lengths] is non-empty and its
    lengths sum to zero (avgdl = 0), on a text index it raises
    [ZeroDivisionError] as soon as some query token has a posting, and
    returns the empty score mapping only when no query token has one. *)
Theorem bm25_zero_division (tokens : list string)
    (index : gmap string Browser.entry) (doc_lengths : gmap string Z) :
  (doc_lengths = ∅ →
   Browser.bm25 tokens index doc_lengths = Raise ZeroDivisionError)
  ∧ (doc_lengths ≠ ∅ → Browser.sum_values doc_lengths = 0%Z →
     positional index →
     Browser.bm25 tokens index doc_lengths
     = if decide (Exists (λ t, posting_urls index t ≠ ∅) tokens)
       then Raise ZeroDivisionError else Ok ∅).
Proof.
  split.
  - intros ->. by apply bm25_no_documents.
  - intros Hne Hsum Hpos. unfold Browser.bm25. rewrite Hsum.
    rewrite py_div_ok.
    + rewrite bind_Ok.
      replace (0 / INR (size doc_lengths))%R with 0%R
        by (unfold Rdiv; by rewrite Rmult_0_l).
      by apply bm25_loop_avgdl_zero.
    + apply not_0_INR. intros Hsize. by apply map_size_empty_iff in Hsize.
Qed.

Lemma bm25_zero_division_witness :
  Browser.bm25 ["green"] (Browser.title_index beanie_globals)
    {[ "/1" := 0%Z; "/2" := 0%Z ]} = Ok ∅
  ∧ Browser.bm25 ["green"; "beanie"] (Browser.title_index beanie_globals)
      {[ "/1" := 0%Z; "/2" := 0%Z ]} = Raise ZeroDivisionError.
Proof.
  assert (Hpos : positional (Browser.title_index beanie_globals))
    by (apply (bool_decide_unpack _); vm_compute; reflexivity).
  assert (Hne : ({[ "/1" := 0%Z; "/2" := 0%Z ]} : gmap string Z) ≠ ∅)
    by (intros H; apply (f_equal (λ m, m !! "/1")) in H; discriminate).
  split.
  - rewrite (proj2 (bm25_zero_division _ _ _) Hne eq_refl Hpos).
    apply decide_False. intros H.
    apply Exists_cons in H as [H|H]; [by apply H|by apply Exists_nil in H].
  - rewrite (proj2 (bm25_zero_division _ _ _) Hne eq_refl Hpos).
    apply decide_True. right. left. intros H.
    apply (f_equal (λ s : gset string, bool_decide ("/1" ∈ s))) in H.
    discriminate.
Defined.

(** C2, counterexample: with an empty length table [bm25] raises
    [ZeroDivisionError] instead of returning the empty mapping, and with
    all lengths zero it raises as soon as a query token has a posting. *)
Lemma bm25_raises_zero_division :
  Browser.bm25 ["beanie"] (Browser.title_index beanie_globals) ∅
  = Raise ZeroDivisionError
  ∧ Browser.bm25 ["beanie"] (Browser.title_index beanie_globals)
      {[ "/1" := 0%Z ]} = Raise ZeroDivisionError.
Proof.
  split; [by apply bm25_no_documents|].
  unfold Browser.bm25.
  change (Browser.sum_values {[ "/1" := 0%Z ]}) with 0%Z.
  change (size ({[ "/1" := 0%Z ]} : gmap string Z)) with 1%nat.
  rewrite py_div_ok by (simpl; lra). rewrite bind_Ok.
  replace (0 / INR 1)%R with 0%R by (simpl; lra).
  rewrite bm25_loop_avgdl_zero
    by (apply (bool_decide_unpack _); vm_compute; reflexivity).
  apply decide_True. left. intros H.
  apply (f_equal (λ s : gset string, bool_decide ("/1" ∈ s))) in H.
  discriminate.
Qed.

(** ** Positional inverted index *)

Section InvertedIndex.
Import IndexBuilder.

Lemma elem_of_positions_from k t toks i :
  i ∈ positions_from k t toks ↔ ∃ j, i = k + j ∧ toks !! j = Some t.
Proof.
  revert k; induction toks as [|x toks IH]; intros k; simpl.
  - split; [by intros H%elem_of_nil | by intros (j & _ & H)].
  - case_decide as Hx.
    + rewrite elem_of_cons, IH. split.
      * intros [->|(j & -> & Hj)].
        -- exists 0. split; [lia | by rewrite Hx].
        -- exists (S j). split; [lia | done].
      * intros ([|j] & -> & Hj); [left; lia|].
        right. exists j. split; [lia | done].
    + rewrite IH. split.
      * intros (j & -> & Hj). exists (S j). split; [lia | done].
      * intros ([|j] & -> & Hj); [simpl in Hj; congruence|].
        exists j. split; [lia | done].
Qed.

Lemma positions_from_sorted k t toks :
  StronglySorted lt (positions_from k t toks).
Proof.
  revert k; induction toks as [|x toks IH]; intros k; simpl.
  - constructor.
  - case_decide; [|apply IH]. constructor; [apply IH|].
    apply Forall_forall. intros i Hi.
    apply elem_of_positions_from in Hi as (j & -> & _). lia.
Qed.

Lemma positions_from_length k t toks :
  length (positions_from k t toks) = length (filter (λ x, x = t) toks).
Proof.
  revert k; induction toks as [|x toks IH]; intros k; simpl; [done|].
  rewrite filter_cons. case_decide; simpl; by rewrite IH.
Qed.

Lemma positions_from_snoc k t toks x :
  positions_from k t (toks ++ [x])
  = positions_from k t toks
    ++ (if decide (x = t) then [k + length toks] else []).
Proof.
  revert k; induction toks as [|y toks IH]; intros k; simpl.
  - case_decide; [|done]. by rewrite Nat.add_0_r.
  - rewrite IH. replace (S k + length toks) with (k + S (length toks))
      by lia.
    by destruct (decide (y = t)).
Qed.

(** The [positions_map] loop records, for every token, its positions
    in increasing order. *)
Lemma positions_map_lookup toks t :
  default [] (positions_map toks !! t) = positions_from 0 t toks.
Proof.
  unfold positions_map, enumerate.
  induction toks as [|x toks IH] using rev_ind; [done|].
  rewrite imap_app, foldl_app, positions_from_snoc. simpl.
  rewrite Nat.add_0_r.
  destruct (decide (x = t)) as [->|Hne].
  - rewrite lookup_insert_eq. simpl. by rewrite IH.
  - rewrite lookup_insert_ne by done. by rewrite IH, app_nil_r.
Qed.

Lemma stored_insert (index : gmap string (gmap (option string) (list nat)))
    (x token : string) (u u' : option string) (v : list nat) :
  stored (<[x := <[u := v]> (default ∅ (index !! x))]> index) token u'
  = if decide (token = x ∧ u' = u) then Some v else stored index token u'.
Proof.
  unfold stored. destruct (decide (token = x)) as [->|Hx].
  - rewrite lookup_insert_eq. simpl.
    destruct (decide (u' = u)) as [->|Hu].
    + by rewrite lookup_insert_eq, decide_True.
    + rewrite lookup_insert_ne by done.
      rewrite decide_False by tauto.
      by destruct (index !! x).
  - rewrite lookup_insert_ne by done. by rewrite decide_False by tauto.
Qed.

(** The loop storing the positions of each distinct token. *)
Lemma store_tokens_stored (pm : gmap string (list nat))
    (u : option string) (l : list string)
    (index : gmap string (gmap (option string) (list nat)))
    (token : string) (u' : option string) :
  stored
    (foldl (λ (index : gmap string (gmap (option string) (list nat)))
              token0,
              <[token0 := <[u := default [] (pm !! token0)]>
                            (default ∅ (index !! token0))]> index)
           index l) token u'
  = if decide (token ∈ l ∧ u' = u) then Some (default [] (pm !! token))
    else stored index token u'.
Proof.
  revert index; induction l as [|x l IH]; intros index; cbn [foldl].
  - rewrite decide_False; [done|]. intros [H _]. by apply elem_of_nil in H.
  - rewrite IH, stored_insert.
    destruct (decide (token ∈ l ∧ u' = u)) as [[H1 H2]|H].
    + rewrite decide_True; [done|]. split; [by right | done].
    + destruct (decide (token = x ∧ u' = u)) as [[-> ->]|H'].
      * rewrite decide_True; [done|]. split; [by left | done].
      * rewrite decide_False; [done|]. intros [H1 H2].
        apply elem_of_cons in H1 as [->|H1]; tauto.
Qed.

Lemma index_document_stored fld index doc token u :
  stored (index_document fld index doc) token u
  = last_posting fld token u (stored index token u) doc.
Proof.
  unfold index_document, last_posting, field_tokens.
  rewrite store_tokens_stored, positions_map_lookup.
  destruct (decide (url doc = u ∧ _)) as [[H1 H2]|H].
  - rewrite decide_True; [done|]. split; [|done].
    by apply elem_of_elements, elem_of_list_to_set.
  - rewrite decide_False; [done|]. intros [H1 H2]. apply H.
    split; [done|]. by apply elem_of_elements, elem_of_list_to_set in H1.
Qed.

Lemma build_inverted_index_stored documents fld token u :
  stored (build_inverted_index documents fld) token u
  = foldl (last_posting fld token u) None documents.
Proof.
  unfold build_inverted_index.
  assert (H : ∀ index acc,
            stored index token u = acc →
            stored (foldl (index_document fld) index documents) token u
            = foldl (last_posting fld token u) acc documents).
  { induction documents as [|d ds IH]; intros index acc Hacc; [done|].
    simpl. apply IH. by rewrite index_document_stored, Hacc. }
  by apply H.
Qed.

(** Every stored list is the position list of some document. *)
Lemma last_posting_origin fld token u documents acc positions :
  foldl (last_posting fld token u) acc documents = Some positions →
  acc = Some positions
  ∨ ∃ doc, doc ∈ documents ∧ url doc = u
           ∧ token ∈ field_tokens fld doc
           ∧ positions = positions_from 0 token (field_tokens fld doc).
Proof.
  revert acc; induction documents as [|d ds IH]; intros acc; simpl.
  - by left.
  - intros H. apply IH in H as [H|(doc & Hin & Hdoc)].
    + unfold last_posting in H. case_decide as Hd; [|by left].
      right. exists d. destruct Hd. injection H as <-.
      repeat split; [by left | done..].
    + right. exists doc. split; [by right | done].
Qed.

Lemma last_posting_other fld token u documents acc :
  u ∉ url <$> documents →
  foldl (last_posting fld token u) acc documents = acc.
Proof.
  revert acc; induction documents as [|d ds IH]; intros acc Hu; [done|].
  simpl in *. apply not_elem_of_cons in Hu as [Hd Hds].
  rewrite IH by done. unfold last_posting.
  rewrite decide_False; [done|]. intros [H _]. by apply Hd.
Qed.

(** With pairwise distinct urls, a document's own postings are the
    ones found under its url. *)
Lemma last_posting_unique fld token documents doc acc :
  NoDup (url <$> documents) → doc ∈ documents →
  foldl (last_posting fld token (url doc)) acc documents
  = if decide (token ∈ field_tokens fld doc)
    then Some (positions_from 0 token (field_tokens fld doc))
    else acc.
Proof.
  revert acc; induction documents as [|d ds IH]; intros acc Hnd Hin.
  - by apply elem_of_nil in Hin.
  - simpl in *. apply NoDup_cons in Hnd as [Hd Hnd].
    apply elem_of_cons in Hin as [->|Hin].
    + rewrite last_posting_other by done. unfold last_posting.
      destruct (decide (token ∈ field_tokens fld d)).
      * by rewrite decide_True.
      * rewrite decide_False; [done|]. tauto.
    + rewrite IH by done. unfold last_posting at 1.
      rewrite (decide_False (P := url d = url doc ∧ _)); [done|].
      intros [H _]. apply Hd. rewrite H.
      apply list_elem_of_fmap. eauto.
Qed.

End InvertedIndex.

(** C7 (as amended).  For every document list, field and token, every
    position list that [build_inverted_index] stores under a (token, url)
    pair is a strictly increasing sequence of 0-based positions: it lists
    exactly the positions of the token in the tokenized field text of some
    document of that url, and its length is the number of occurrences of
    the token there.  When the urls of the documents are pairwise
    distinct, that document is the one carrying the url: a list is stored
    for (token, url of doc) exactly when the token occurs in the
    document's tokenized field text, it is strictly increasing, lists
    exactly the positions of the token in that text, and its length is
    the number of occurrences. *)
Theorem build_inverted_index_positions
    (documents : list IndexBuilder.document) (fld token : string) :
  (∀ u positions,
     stored (IndexBuilder.build_inverted_index documents fld) token u
     = Some positions →
     StronglySorted lt positions
     ∧ ∃ doc, doc ∈ documents ∧ IndexBuilder.url doc = u
              ∧ (∀ i, i ∈ positions
                      ↔ field_tokens fld doc !! i = Some token)
              ∧ length positions
                = length (filter (λ x, x = token) (field_tokens fld doc)))
  ∧ (NoDup (IndexBuilder.url <$> documents) →
     ∀ doc, doc ∈ documents →
       (is_Some (stored (IndexBuilder.build_inverted_index documents fld)
                   token (IndexBuilder.url doc))
        ↔ token ∈ field_tokens fld doc)
       ∧ ∀ positions,
           stored (IndexBuilder.build_inverted_index documents fld)
             token (IndexBuilder.url doc) = Some positions →
           StronglySorted lt positions
           ∧ (∀ i, i ∈ positions ↔ field_tokens fld doc !! i = Some token)
           ∧ length positions
             = length (filter (λ x, x = token) (field_tokens fld doc))).
Proof.
  split.
  - intros u positions Hst. rewrite build_inverted_index_stored in Hst.
    apply last_posting_origin in Hst as [?|(doc & Hin & Hu & Htok & ->)];
      [done|].
    split; [apply positions_from_sorted|].
    exists doc. repeat split; try done.
    + intros (j & -> & Hj)%elem_of_positions_from. done.
    + intros Hi. apply elem_of_positions_from. by exists i.
    + apply positions_from_length.
  - intros Hnd doc Hin. rewrite build_inverted_index_stored.
    rewrite last_posting_unique by done.
    destruct (decide (token ∈ field_tokens fld doc)) as [Htok|Htok].
    + split; [split; [done | by eexists]|].
      intros positions [= <-].
      split; [apply positions_from_sorted|]. split.
      * intros i. rewrite elem_of_positions_from. split.
        -- by intros (j & -> & Hj).
        -- intros Hi. by exists i.
      * apply positions_from_length.
    + split; [|done]. split; [by intros [? ?] | done].
Qed.

Lemma build_inverted_index_positions_witness :
  ∃ positions,
    stored (IndexBuilder.build_inverted_index beanie_catalogue "description")
      "beanie" (Some "/1") = Some positions
    ∧ StronglySorted lt positions
    ∧ length positions = 1.
Proof.
  assert (Hnd : NoDup (IndexBuilder.url <$> beanie_catalogue))
    by (apply (bool_decide_unpack _); vm_compute; reflexivity).
  assert (Hin : red_beanie_doc ∈ beanie_catalogue) by left.
  assert (Htok : "beanie" ∈ field_tokens "description" red_beanie_doc)
    by (apply (bool_decide_unpack _); vm_compute; reflexivity).
  destruct (proj2 (build_inverted_index_positions beanie_catalogue
                     "description" "beanie") Hnd red_beanie_doc Hin)
    as [Hsome Hpos].
  destruct (proj2 Hsome Htok) as [positions Hst].
  exists positions. split; [exact Hst|].
  destruct (Hpos positions Hst) as (Hsorted & _ & Hlen).
  split; [exact Hsorted|]. rewrite Hlen. reflexivity.
Defined.

(** C7, counterexample: when two documents share a url, the list stored
    for the token [red] and the url of the second document has two
    positions although [red] does not occur in that document's title. *)
Lemma build_inverted_index_shared_url :
  ∃ doc,
    doc ∈ shared_url_catalogue
    ∧ stored (IndexBuilder.build_inverted_index shared_url_catalogue "title")
        "red" (IndexBuilder.url doc) = Some [0; 1]
    ∧ length (filter (λ x, x = "red") (field_tokens "title" doc)) = 0.
Proof.
  exists same_url_doc.
  split; [right; left|]. split; vm_compute; reflexivity.
Qed.

(** ** Reviews index *)

Section Reviews.
Import IndexBuilder.

Lemma unrated_dec doc : {unrated doc} + {¬ unrated doc}.
Proof.
  unfold unrated.
  destruct (default [] (product_reviews doc)) as [|r rs];
    [right; by intros [? _]|].
  destruct (omap rating (r :: rs)) as [|x xs];
    [by left | right; by intros [_ ?]].
Qed.

Lemma index_reviews_unrated reviews_index doc :
  unrated doc → index_reviews reviews_index doc = Raise StatisticsError.
Proof.
  intros [Hne Hnone]. unfold index_reviews.
  destruct (default [] (product_reviews doc)) as [|r rs]; [done|].
  by rewrite Hnone.
Qed.

Lemma index_reviews_rated reviews_index doc :
  ¬ unrated doc →
  ∃ record, index_reviews reviews_index doc
            = Ok (<[url doc := record]> reviews_index).
Proof.
  intros Hrated. unfold index_reviews.
  destruct (default [] (product_reviews doc)) as [|r rs] eqn:Hrev;
    [by eexists|].
  destruct (omap rating (r :: rs)) as [|x xs] eqn:Hrat.
  - destruct Hrated. split; [by rewrite Hrev | by rewrite Hrev].
  - assert (Hlast : ∃ y, last_item (x :: xs) = Ok y).
    { unfold last_item.
      destruct (last (x :: xs)) as [y|] eqn:E; [by eexists|].
      by apply last_None in E. }
    destruct Hlast as [y Hy]. cbn [mean]. rewrite bind_Ok, Hy, bind_Ok.
    by eexists.
Qed.

(** The loop stops with [StatisticsError] at the first document whose
    reviews are all unrated, and returns when there is none. *)
Lemma build_reviews_index_outcome documents :
  (Exists unrated documents
   ∧ build_reviews_index documents = Raise StatisticsError)
  ∨ (Forall (λ doc, ¬ unrated doc) documents
     ∧ is_Ok (build_reviews_index documents)).
Proof.
  unfold build_reviews_index.
  generalize (∅ : gmap (option string) review_stats).
  induction documents as [|d ds IH]; intros acc.
  - right. split; [constructor | by eexists].
  - rewrite foldM_cons.
    destruct (unrated_dec d) as [Hd|Hd].
    + left. split; [by left|]. by rewrite index_reviews_unrated.
    + destruct (index_reviews_rated acc d Hd) as [record ->].
      rewrite bind_Ok.
      destruct (IH (<[url d := record]> acc)) as [[Hex ->]|[Hall Hok]].
      * left. split; [by right | done].
      * right. split; [by constructor | done].
Qed.

End Reviews.

(** C4, evaluated at the failing input.  A document whose non-empty
    review list holds no [rating] key makes [build_reviews_index] raise
    [StatisticsError] (the mean of an empty list); absent and empty review
    lists give the zero record, and unrated reviews are left out of the
    count, the mean and the last rating as long as one review is rated. *)
Theorem build_reviews_index_unrated_raises :
  IndexBuilder.build_reviews_index [unrated_doc] = Raise StatisticsError
  ∧ IndexBuilder.build_reviews_index (beanie_catalogue ++ [unrated_doc])
    = Raise StatisticsError
  ∧ IndexBuilder.build_reviews_index (beanie_catalogue ++ [rated_doc])
    = Ok {[ Some "/1" := {| IndexBuilder.total_reviews := 0;
                            IndexBuilder.mean_mark := 0;
                            IndexBuilder.last_rating := 0 |};
            Some "/2" := {| IndexBuilder.total_reviews := 0;
                            IndexBuilder.mean_mark := 0;
                            IndexBuilder.last_rating := 0 |};
            Some "/4" := {| IndexBuilder.total_reviews := 2;
                            IndexBuilder.mean_mark := 9 # 2;
                            IndexBuilder.last_rating := 4 |} ]}.
Proof. vm_compute. repeat split; reflexivity. Qed.

(** ** Search pipeline *)

Section Search.
Import Browser.

Lemma score_candidate_missing g tokens (md : gmap string metadata)
    found doc :
  md !! doc = None →
  score_candidate g tokens md found doc = Raise KeyError.
Proof. intros Hdoc. unfold score_candidate, getitem. by rewrite Hdoc. Qed.

Lemma score_candidate_value g tokens (md : gmap string metadata)
    found doc stats score :
  md !! doc = Some stats →
  compute_score g doc tokens stats = Ok score →
  score_candidate g tokens md found doc
  = Ok (found ++ [ {| hit_title := title stats;
                      hit_url := doc;
                      hit_description := description stats;
                      hit_score := round3 score |} ]).
Proof.
  intros Hdoc Hscore. unfold score_candidate, getitem.
  by rewrite Hdoc, bind_Ok, Hscore, bind_Ok.
Qed.

Lemma score_candidate_present g tokens (md : gmap string metadata)
    found doc stats :
  md !! doc = Some stats →
  is_Ok (compute_score g doc tokens stats) →
  is_Ok (score_candidate g tokens md found doc).
Proof.
  intros Hdoc [score Hscore].
  rewrite (score_candidate_value _ _ _ _ _ _ _ Hdoc Hscore). by eexists.
Qed.

(** All candidates have metadata: the loop returns. *)
Lemma score_candidates_ok g tokens (md : gmap string metadata) found l :
  (∀ doc, doc ∈ l →
          ∃ stats, md !! doc = Some stats
                   ∧ is_Ok (compute_score g doc tokens stats)) →
  ∃ found', foldM (score_candidate g tokens md) found l = Ok found'
            ∧ length found' = length found + length l.
Proof.
  revert found; induction l as [|doc l IH]; intros found Hall.
  - exists found. split; [done | simpl; lia].
  - destruct (Hall doc) as (stats & Hdoc & [score Hscore]); [by left|].
    rewrite foldM_cons.
    rewrite (score_candidate_value _ _ _ _ _ _ _ Hdoc Hscore), bind_Ok.
    destruct (IH (found ++ [ {| hit_title := title stats;
                                hit_url := doc;
                                hit_description := description stats;
                                hit_score := round3 score |} ]))
      as (found' & Hf & Hlen).
    { intros; apply Hall; by right. }
    exists found'. split; [done|].
    rewrite Hlen, length_app. simpl. lia.
Qed.

(** Some candidate has no metadata: the loop raises [KeyError], the
    candidates visited before it being scored without error. *)
Lemma score_candidates_missing g tokens (md : gmap string metadata)
    found l :
  (∃ doc, doc ∈ l ∧ md !! doc = None) →
  (∀ doc stats, doc ∈ l → md !! doc = Some stats →
                is_Ok (compute_score g doc tokens stats)) →
  foldM (score_candidate g tokens md) found l = Raise KeyError.
Proof.
  revert found; induction l as [|doc l IH];
    intros found (missing & Hin & Hmiss) Hscore.
  - by apply elem_of_nil in Hin.
  - rewrite foldM_cons. destruct (md !! doc) as [stats|] eqn:Hdoc.
    + destruct (score_candidate_present g tokens md found doc stats Hdoc)
        as [found' ->]; [apply Hscore; [by left | done]|].
      rewrite bind_Ok. apply IH.
      * exists missing. split; [|done].
        apply elem_of_cons in Hin as [->|Hin]; [congruence | done].
      * intros d st Hd. apply Hscore. by right.
    + by rewrite score_candidate_missing.
Qed.

Lemma insert_desc_length h l : length (insert_desc h l) = S (length l).
Proof.
  induction l as [|h' l IH]; simpl; [done|].
  destruct (Rlt_dec _ _); simpl; by rewrite ?IH.
Qed.

Lemma sort_desc_length l : length (sort_desc l) = length l.
Proof.
  induction l as [|h l IH]; simpl; [done|].
  by rewrite insert_desc_length, IH.
Qed.

End Search.

(** C10.  Let [filter_documents] return the candidate set for the
    processed query, the candidates that have metadata being scored
    without error.  If every candidate url is a key of
    [documents_metadata], [search] returns a result set with one result
    per candidate; if some candidate url is not a key, [search] raises
    [KeyError] instead of returning a result set. *)
Theorem search_requires_metadata (g : Browser.globals) (q : string)
    (documents_metadata : gmap string Browser.metadata)
    (candidates : gset string) :
  Browser.filter_documents g (Browser.process_query g q) = Ok candidates →
  (∀ doc stats,
     doc ∈ candidates → documents_metadata !! doc = Some stats →
     is_Ok (Browser.compute_score g doc (Browser.process_query g q) stats)) →
  ((∀ doc, doc ∈ candidates → is_Some (documents_metadata !! doc)) →
   ∃ out, Browser.search g q documents_metadata = Ok out
          ∧ Browser.filtered_documents out = size candidates
          ∧ length (Browser.results out) = size candidates)
  ∧ ((∃ doc, doc ∈ candidates ∧ documents_metadata !! doc = None) →
     Browser.search g q documents_metadata = Raise KeyError).
Proof.
  intros Hfilter Hscore. unfold Browser.search. rewrite Hfilter, bind_Ok.
  split.
  - intros Hall.
    destruct (score_candidates_ok g (Browser.process_query g q)
                documents_metadata [] (elements candidates))
      as (found & -> & Hlen).
    { intros doc Hdoc%elem_of_elements.
      destruct (Hall doc Hdoc) as [stats Hstats]. eauto. }
    rewrite bind_Ok. eexists. split; [reflexivity|]. simpl.
    split; [done|]. by rewrite sort_desc_length, Hlen.
  - intros (doc & Hdoc & Hmiss).
    rewrite score_candidates_missing; [done | |].
    + exists doc. split; [by apply elem_of_elements | done].
    + intros d st Hd%elem_of_elements. by apply Hscore.
Qed.

Lemma search_requires_metadata_witness :
  Browser.search beanie_globals "blue beanie" {[ "/2" := blue_scarf_stats ]}
  = Raise KeyError.
Proof.
  assert (Hf : Browser.filter_documents beanie_globals
                 (Browser.process_query beanie_globals "blue beanie")
               = Ok {[ "/1"; "/2" ]})
    by (vm_compute; reflexivity).
  assert (Hscore : ∀ doc stats,
            doc ∈ ({[ "/1"; "/2" ]} : gset string) →
            ({[ "/2" := blue_scarf_stats ]} : gmap string Browser.metadata)
              !! doc = Some stats →
            is_Ok (Browser.compute_score beanie_globals doc
                     (Browser.process_query beanie_globals "blue beanie")
                     stats)).
  { intros doc stats _ [<- _]%lookup_singleton_Some.
    apply compute_score_ok;
      apply (bool_decide_unpack _); vm_compute; reflexivity. }
  apply (proj2 (search_requires_metadata beanie_globals "blue beanie"
                  {[ "/2" := blue_scarf_stats ]} {[ "/1"; "/2" ]}
                  Hf Hscore)).
  exists "/1". split; [|reflexivity].
  apply elem_of_union. left. by apply elem_of_singleton.
Defined.

(** * Further properties of the browser *)

(** ** Query processing *)

Section QueryProcessing.
Import Browser.

Lemma expand_loop_elem (syn : gmap string (list string))
    (tokens : list string) (acc : gset string) (t : string) :
  t ∈ foldl (λ (expanded : gset string) s,
               match syn !! s with
               | Some syns => expanded ∪ list_to_set syns
               | None => expanded
               end) acc tokens
  ↔ t ∈ acc ∨ ∃ s syns, s ∈ tokens ∧ syn !! s = Some syns ∧ t ∈ syns.
Proof.
  revert acc; induction tokens as [|s ss IH]; intros acc; cbn [foldl].
  - split; [by left|]. intros [?|(s & syns & Hs & _)]; [done|].
    by apply elem_of_nil in Hs.
  - rewrite IH. split.
    + intros [Hacc|(s' & syns & Hs' & Hsyn & Ht)].
      * destruct (syn !! s) as [syns|] eqn:E; [|by left].
        apply elem_of_union in Hacc as [?|Hin]; [by left|].
        right. exists s, syns. split; [by left|].
        split; [done|]. by apply elem_of_list_to_set in Hin.
      * right. exists s', syns. split; [by right | done].
    + intros [Hacc|(s' & syns & Hs' & Hsyn & Ht)].
      * left. destruct (syn !! s); [|done]. apply elem_of_union. by left.
      * apply elem_of_cons in Hs' as [->|Hs'].
        -- left. rewrite Hsyn. apply elem_of_union. right.
           by apply elem_of_list_to_set.
        -- right. exists s', syns. done.
Qed.

End QueryProcessing.

(** X1.  [process_query] returns, without repetition, exactly the
    tokens of the query that are not stopwords and the synonyms listed
    under such a token.  Synonyms are added as the table lists them:
    they are neither tokenized nor filtered, and the synonyms of a
    stopword of the query are not added. *)
Theorem process_query_tokens (g : Browser.globals) (query : string) :
  NoDup (Browser.process_query g query)
  ∧ ∀ t, t ∈ Browser.process_query g query
         ↔ (t ∈ Browser.tokenize query ∧ t ∉ Browser.STOPWORDS g)
           ∨ ∃ s syns, s ∈ Browser.tokenize query
                       ∧ (s ∉ Browser.STOPWORDS g)
                       ∧ Browser.synonyms g !! s = Some syns
                       ∧ t ∈ syns.
Proof.
  unfold Browser.process_query, Browser.expand_with_synonyms,
    Browser.normalize.
  split; [apply NoDup_elements|].
  intros t. rewrite elem_of_elements, expand_loop_elem.
  rewrite elem_of_list_to_set, list_elem_of_filter.
  split.
  - intros [[? ?]|(s & syns & Hs & Hsyn & Ht)]; [by left|].
    apply list_elem_of_filter in Hs as [? ?]. right. by exists s, syns.
  - intros [[? ?]|(s & syns & Hs & Hstop & Hsyn & Ht)]; [by left|].
    right. exists s, syns. by rewrite list_elem_of_filter.
Qed.

(** X2.  [expand_with_synonyms] returns, without repetition, exactly the
    query tokens and the direct synonyms of query tokens: a token is in
    the result iff it is a query token or is listed in the synonym table
    under a query token.  Synonyms of synonyms are not added. *)
Theorem expand_with_synonyms_elements (g : Browser.globals)
    (tokens : list string) :
  NoDup (Browser.expand_with_synonyms g tokens)
  ∧ ∀ t, t ∈ Browser.expand_with_synonyms g tokens
         ↔ t ∈ tokens
           ∨ ∃ s syns, s ∈ tokens ∧ Browser.synonyms g !! s = Some syns
                       ∧ t ∈ syns.
Proof.
  unfold Browser.expand_with_synonyms. split; [apply NoDup_elements|].
  intros t. rewrite elem_of_elements, expand_loop_elem.
  by rewrite elem_of_list_to_set.
Qed.

(** ** Complete outcome of the filters *)

Section FilterOutcome.
Import Browser.

Lemma hits_list_cons index t ts :
  hits_list index (t :: ts)
  = match index !! t with
    | Some e => negb (has_keys e)
    | None => false
    end || hits_list index ts.
Proof. reflexivity. Qed.

Lemma posting_urls_contains index t url :
  match index !! t with
  | Some e => has_keys e = true
  | None => True
  end →
  url ∈ posting_urls index t ↔ has_posting index t url.
Proof.
  unfold posting_urls, has_posting. intros Hk.
  destruct (index !! t) as [[p|l|n m r]|] eqn:E; simpl in *.
  - split.
    + intros Hu. eexists. split; [done|]. by apply bool_decide_eq_true.
    + intros (e & [= <-] & Hc). by apply bool_decide_eq_true in Hc.
  - done.
  - split.
    + intros Hu. eexists. split; [done|]. by apply bool_decide_eq_true.
    + intros (e & [= <-] & Hc). by apply bool_decide_eq_true in Hc.
  - split; [by intros ?%not_elem_of_empty | by intros (e & ? & _)].
Qed.

Lemma hits_list_false index tokens :
  hits_list index tokens = false →
  ∀ t, t ∈ tokens →
       match index !! t with
       | Some e => has_keys e = true
       | None => True
       end.
Proof.
  induction tokens as [|s ss IH]; intros Hh t Ht.
  - by apply elem_of_nil in Ht.
  - rewrite hits_list_cons in Hh. apply orb_false_iff in Hh as [Hs Hss].
    apply elem_of_cons in Ht as [->|Ht]; [|by apply IH].
    destruct (index !! s); [|done]. by apply negb_false_iff in Hs.
Qed.

Lemma any_urls_has_posting index tokens url :
  hits_list index tokens = false →
  url ∈ any_urls tokens index
  ↔ ∃ t, t ∈ tokens ∧ has_posting index t url.
Proof.
  intros Hh. rewrite elem_of_any_urls. split.
  - intros (t & Ht & Hu). exists t. split; [done|].
    by apply posting_urls_contains; [apply (hits_list_false _ _ Hh)|].
  - intros (t & Ht & Hp). exists t. split; [done|].
    by apply posting_urls_contains; [apply (hits_list_false _ _ Hh)|].
Qed.

Lemma filter_any_loop_outcome (tokens : list string)
    (index : gmap string entry) (docs : gset string) :
  foldM (λ (docs : gset string) t,
           match index !! t with
           | Some e => ks ← keys e; Ok (docs ∪ ks)
           | None => Ok docs
           end) docs tokens
  = if hits_list index tokens then Raise AttributeError
    else Ok (docs ∪ any_urls tokens index).
Proof.
  revert docs; induction tokens as [|t ts IH]; intros docs.
  - simpl. f_equal. unfold any_urls. simpl. by rewrite (right_id_L ∅ (∪)).
  - rewrite foldM_cons, hits_list_cons. unfold any_urls in *.
    rewrite fmap_cons. cbn [union_list foldr]. unfold posting_urls at 1.
    destruct (index !! t) as [[p|l|n m r]|] eqn:E; simpl.
    + rewrite IH. destruct (hits_list index ts); [done|].
      f_equal. by rewrite (assoc_L (∪)).
    + done.
    + rewrite IH. destruct (hits_list index ts); [done|].
      f_equal. by rewrite (assoc_L (∪)).
    + rewrite IH. destruct (hits_list index ts); [done|].
      f_equal. by rewrite (left_id_L ∅ (∪)).
Qed.

Lemma filter_any_token_any_urls tokens index :
  filter_any_token tokens index
  = if hits_list index tokens then Raise AttributeError
    else Ok (any_urls tokens index).
Proof.
  unfold filter_any_token. rewrite filter_any_loop_outcome.
  destruct (hits_list index tokens); [done|].
  f_equal. by rewrite (left_id_L ∅ (∪)).
Qed.

Lemma filter_all_loop_outcome (tokens : list string)
    (index : gmap string entry) (doc_sets : list (gset string)) :
  foldM (λ (doc_sets : list (gset string)) t,
           match index !! t with
           | Some e => ks ← keys e; Ok (doc_sets ++ [ks])
           | None => Ok doc_sets
           end) doc_sets tokens
  = if hits_list index tokens then Raise AttributeError
    else Ok (doc_sets ++ present_sets tokens index).
Proof.
  revert doc_sets. induction tokens as [|t ts IH]; intros ds.
  - simpl. by rewrite app_nil_r.
  - rewrite foldM_cons, hits_list_cons. unfold present_sets in *.
    cbn [omap list_omap]. unfold posting_urls at 1.
    destruct (index !! t) as [[p|l|n m r]|] eqn:E; simpl.
    + rewrite IH. destruct (hits_list index ts); [done|].
      by rewrite <- app_assoc.
    + done.
    + rewrite IH. destruct (hits_list index ts); [done|].
      by rewrite <- app_assoc.
    + apply IH.
Qed.

Lemma elem_of_present_sets tokens index X :
  X ∈ present_sets tokens index
  ↔ ∃ t, t ∈ tokens ∧ is_Some (index !! t) ∧ X = posting_urls index t.
Proof.
  unfold present_sets. rewrite list_elem_of_omap. split.
  - intros (t & Ht & HX). exists t. split; [done|].
    destruct (index !! t); [|done]. injection HX as <-. eauto.
  - intros (t & Ht & [e He] & ->). exists t. split; [done|].
    by rewrite He.
Qed.

(** The set [filter_all_tokens] computes from [doc_sets]. *)
Lemma elem_of_strict tokens index url :
  url ∈ match present_sets tokens index with
        | [] => ∅
        | first :: rest => intersection first rest
        end
  ↔ (∃ t, t ∈ tokens ∧ is_Some (index !! t))
    ∧ (∀ t, t ∈ tokens → is_Some (index !! t) → url ∈ posting_urls index t).
Proof.
  pose proof (elem_of_present_sets tokens index) as Hmem.
  destruct (present_sets tokens index) as [|first rest] eqn:E.
  - split.
    + intros H. by apply not_elem_of_empty in H.
    + intros [(t & Ht & Hsome) _]. exfalso.
      assert (H : posting_urls index t ∈ []) by (apply Hmem; eauto).
      by apply elem_of_nil in H.
  - rewrite elem_of_intersection_list. split.
    + intros [H1 H2]. split.
      * destruct (proj1 (Hmem first)) as (t & Ht & Hs & _); [by left|].
        eauto.
      * intros t Ht Hs.
        assert (H : posting_urls index t ∈ first :: rest)
          by (apply Hmem; eauto).
        apply elem_of_cons in H as [->|H]; auto.
    + intros [_ H]. split.
      * destruct (proj1 (Hmem first)) as (t & Ht & Hs & ->); [by left|].
        by apply H.
      * intros X HX.
        destruct (proj1 (Hmem X)) as (t & Ht & Hs & ->); [by right|].
        by apply H.
Qed.

Lemma filter_all_tokens_strict tokens index :
  filter_all_tokens tokens index
  = if hits_list index tokens then Raise AttributeError
    else Ok match present_sets tokens index with
            | [] => ∅
            | first :: rest => intersection first rest
            end.
Proof.
  unfold filter_all_tokens. rewrite filter_all_loop_outcome.
  destruct (hits_list index tokens); [done|]. rewrite bind_Ok. simpl.
  by destruct (present_sets tokens index).
Qed.

(** What [filter_all_tokens] keeps is among what [filter_any_token]
    keeps. *)
Lemma strict_subseteq_any tokens index url :
  hits_list index tokens = false →
  url ∈ match present_sets tokens index with
        | [] => ∅
        | first :: rest => intersection first rest
        end →
  url ∈ any_urls tokens index.
Proof.
  intros Hh [(t & Ht & Hsome) Hall]%elem_of_strict.
  apply elem_of_any_urls. exists t. split; [done|]. by apply Hall.
Qed.

End FilterOutcome.

(** X3.  [filter_any_token] raises [AttributeError] exactly when some
    query token is stored in the index as a bare list of urls; otherwise
    it returns the set of documents that have a posting under at least
    one query token (OR semantics). *)
Theorem filter_any_token_outcome (tokens : list string)
    (index : gmap string Browser.entry) :
  if hits_list index tokens
  then Browser.filter_any_token tokens index = Raise AttributeError
  else ∃ docs,
         Browser.filter_any_token tokens index = Ok docs
         ∧ ∀ url, url ∈ docs ↔ ∃ t, t ∈ tokens ∧ has_posting index t url.
Proof.
  rewrite filter_any_token_any_urls.
  destruct (hits_list index tokens) eqn:Hh; [done|].
  eexists. split; [done|]. intros url. by apply any_urls_has_posting.
Qed.

(** X4.  [filter_all_tokens] raises [AttributeError] exactly when some
    query token is stored in the index as a bare list of urls; otherwise
    it returns the documents that have a posting under every query token
    present in the index, provided at least one query token is present
    (AND semantics over the present tokens, query tokens missing from the
    index being ignored), and what it returns is a subset of what
    [filter_any_token] returns. *)
Theorem filter_all_tokens_outcome (tokens : list string)
    (index : gmap string Browser.entry) :
  if hits_list index tokens
  then Browser.filter_all_tokens tokens index = Raise AttributeError
  else ∃ strict docs,
         Browser.filter_all_tokens tokens index = Ok strict
         ∧ Browser.filter_any_token tokens index = Ok docs
         ∧ strict ⊆ docs
         ∧ ∀ url, url ∈ strict
                  ↔ (∃ t, t ∈ tokens ∧ is_Some (index !! t))
                    ∧ (∀ t, t ∈ tokens → is_Some (index !! t) →
                            has_posting index t url).
Proof.
  rewrite filter_all_tokens_strict, filter_any_token_any_urls.
  destruct (hits_list index tokens) eqn:Hh; [done|].
  eexists _, _. split; [done|]. split; [done|]. split.
  - intros url. by apply strict_subseteq_any.
  - intros url. rewrite elem_of_strict. split.
    + intros [Hex Hall]. split; [done|]. intros t Ht Hsome.
      apply posting_urls_contains; [by apply (hits_list_false _ _ Hh)|].
      by apply Hall.
    + intros [Hex Hall]. split; [done|]. intros t Ht Hsome.
      apply posting_urls_contains; [by apply (hits_list_false _ _ Hh)|].
      by apply Hall.
Qed.

(** X5.  [filter_documents] raises [AttributeError] exactly when some
    query token is stored as a bare list of urls in the title,
    description, brand or origin index; otherwise it returns the
    documents that have a posting under at least one query token in at
    least one of these four indexes.  The AND filter on the title index
    never adds a candidate. *)
Theorem filter_documents_outcome (g : Browser.globals)
    (tokens : list string) :
  if existsb (λ index, hits_list index tokens) (Browser.wired g)
  then Browser.filter_documents g tokens = Raise AttributeError
  else ∃ candidates,
         Browser.filter_documents g tokens = Ok candidates
         ∧ ∀ url, url ∈ candidates
                  ↔ ∃ index t, index ∈ Browser.wired g ∧ t ∈ tokens
                               ∧ has_posting index t url.
Proof.
  unfold Browser.filter_documents, Browser.wired. cbn [existsb foldM].
  rewrite !filter_any_token_any_urls, filter_all_tokens_strict.
  destruct (hits_list (Browser.title_index g) tokens) eqn:Ht; [done|].
  destruct (hits_list (Browser.description_index g) tokens) eqn:Hd; [done|].
  destruct (hits_list (Browser.brand_index g) tokens) eqn:Hb; [done|].
  destruct (hits_list (Browser.origin_index g) tokens) eqn:Ho; [done|].
  simpl. eexists. split; [done|]. intros url.
  rewrite !elem_of_union. split.
  - intros [[[[[H|H]|H]|H]|H]|H].
    + by apply not_elem_of_empty in H.
    + apply any_urls_has_posting in H as (t & ? & ?); [|done].
      exists (Browser.title_index g), t. split; [by left | done].
    + apply any_urls_has_posting in H as (t & ? & ?); [|done].
      exists (Browser.description_index g), t.
      split; [by right; left | done].
    + apply any_urls_has_posting in H as (t & ? & ?); [|done].
      exists (Browser.brand_index g), t.
      split; [by right; right; left | done].
    + apply any_urls_has_posting in H as (t & ? & ?); [|done].
      exists (Browser.origin_index g), t.
      split; [by right; right; right; left | done].
    + apply strict_subseteq_any in H; [|done].
      apply any_urls_has_posting in H as (t & ? & ?); [|done].
      exists (Browser.title_index g), t. split; [by left | done].
  - intros (index & t & Hin & Htok & Hp).
    repeat (apply elem_of_cons in Hin as [->|Hin]).
    + left; left; left; left; right. apply any_urls_has_posting; eauto.
    + left; left; left; right. apply any_urls_has_posting; eauto.
    + left; left; right. apply any_urls_has_posting; eauto.
    + left; right. apply any_urls_has_posting; eauto.
    + by apply elem_of_nil in Hin.
Qed.

(** ** Rounding, ranking and the result set *)

Section Ranking.
Import Browser.
Local Open Scope R_scope.

Lemma floor_bounds x : IZR (floor x) <= x < IZR (floor x) + 1.
Proof.
  unfold floor. rewrite minus_IZR.
  destruct (archimed x) as [H1 H2]. lra.
Qed.

Lemma floor_IZR k : floor (IZR k) = k.
Proof.
  pose proof (floor_bounds (IZR k)) as [H1 H2].
  apply le_IZR in H1.
  assert (H3 : (k < floor (IZR k) + 1)%Z)
    by (apply lt_IZR; rewrite plus_IZR; lra).
  lia.
Qed.

Lemma round_half_even_near x :
  - (1 / 2) <= IZR (round_half_even x) - x <= 1 / 2.
Proof.
  unfold round_half_even. pose proof (floor_bounds x) as [H1 H2].
  destruct (Rlt_dec (x - IZR (floor x)) (1 / 2)) as [Hlo|Hlo].
  - lra.
  - destruct (Rlt_dec (1 / 2) (x - IZR (floor x))) as [Hhi|Hhi].
    + rewrite plus_IZR. lra.
    + destruct (Z.even (floor x)); [|rewrite plus_IZR]; lra.
Qed.

Lemma round_half_even_IZR k : round_half_even (IZR k) = k.
Proof.
  unfold round_half_even. rewrite floor_IZR.
  destruct (Rlt_dec (IZR k - IZR k) (1 / 2)) as [_|H]; [done|].
  exfalso. apply H. lra.
Qed.

Lemma insert_desc_perm h l : insert_desc h l ≡ₚ h :: l.
Proof.
  induction l as [|h' l IH]; simpl; [done|].
  destruct (Rlt_dec _ _); [|done].
  rewrite IH. apply Permutation_swap.
Qed.

Lemma sort_desc_perm l : sort_desc l ≡ₚ l.
Proof.
  induction l as [|h l IH]; simpl; [done|].
  by rewrite insert_desc_perm, IH.
Qed.

Lemma insert_desc_sorted h l :
  StronglySorted score_ge l → StronglySorted score_ge (insert_desc h l).
Proof.
  induction 1 as [|h' l Hl IH Hall]; simpl.
  - repeat constructor.
  - destruct (Rlt_dec (hit_score h) (hit_score h')) as [Hlt|Hge].
    + constructor; [done|].
      apply Forall_forall. intros x Hx.
      rewrite insert_desc_perm in Hx.
      apply elem_of_cons in Hx as [->|Hx]; [unfold score_ge; lra|].
      rewrite Forall_forall in Hall. by apply Hall.
    + constructor; [by constructor|].
      constructor; [unfold score_ge; lra|].
      apply Forall_forall. intros x Hx.
      rewrite Forall_forall in Hall. specialize (Hall x Hx).
      unfold score_ge in *. lra.
Qed.

Lemma sort_desc_sorted l : StronglySorted score_ge (sort_desc l).
Proof.
  induction l as [|h l IH]; simpl; [constructor|].
  by apply insert_desc_sorted.
Qed.

Lemma with_score_insert_desc s h l :
  with_score s (insert_desc h l)
  = if Req_dec_T (hit_score h) s then h :: with_score s l
    else with_score s l.
Proof.
  induction l as [|h' l IH]; simpl; [done|].
  destruct (Rlt_dec (hit_score h) (hit_score h')) as [Hlt|Hge]; simpl.
  - rewrite IH.
    destruct (Req_dec_T (hit_score h') s) as [E'|E'];
      destruct (Req_dec_T (hit_score h) s) as [E|E]; try done.
    exfalso. lra.
  - done.
Qed.

Lemma with_score_sort_desc s l : with_score s (sort_desc l) = with_score s l.
Proof.
  induction l as [|h l IH]; simpl; [done|].
  by rewrite with_score_insert_desc, IH.
Qed.

(** The loop of [search] builds one hit per candidate, in the order of
    the candidates. *)
Lemma score_candidates_hits g tokens (md : gmap string metadata) found l :
  (∀ doc, doc ∈ l →
          ∃ stats, md !! doc = Some stats
                   ∧ is_Ok (compute_score g doc tokens stats)) →
  ∃ hits, foldM (score_candidate g tokens md) found l = Ok (found ++ hits)
          ∧ Forall2 (is_hit g tokens md) l hits.
Proof.
  revert found; induction l as [|doc l IH]; intros found Hall.
  - exists []. split; [by rewrite app_nil_r | constructor].
  - destruct (Hall doc) as (stats & Hdoc & [score Hscore]); [by left|].
    rewrite foldM_cons.
    rewrite (score_candidate_value _ _ _ _ _ _ _ Hdoc Hscore), bind_Ok.
    destruct (IH (found ++ [ {| hit_title := title stats;
                                hit_url := doc;
                                hit_description := description stats;
                                hit_score := round3 score |} ]))
      as (hits & Hf & Hhits).
    { intros; apply Hall; by right. }
    eexists (_ :: hits). split.
    + rewrite Hf. by rewrite <- app_assoc.
    + constructor; [|done]. by exists stats, score.
Qed.

(** [round(x, 3)] returns a multiple of 1/1000 at distance at most
    0.0005 from [x]. *)
Lemma round3_near (x : R) :
  ∃ n : Z, round3 x = IZR n / 1000 ∧ Rabs (round3 x - x) <= 1 / 2000.
Proof.
  exists (round_half_even (x * 1000)). split; [done|].
  unfold round3. pose proof (round_half_even_near (x * 1000)) as H.
  apply Rabs_le. lra.
Qed.

(** ... and leaves every multiple of 1/1000 unchanged. *)
Lemma round3_fixed (k : Z) : round3 (IZR k / 1000) = IZR k / 1000.
Proof.
  unfold round3. replace (IZR k / 1000 * 1000) with (IZR k) by lra.
  by rewrite round_half_even_IZR.
Qed.

Lemma is_hit_urls g tokens (md : gmap string metadata) l hits :
  Forall2 (is_hit g tokens md) l hits → hit_url <$> hits = l.
Proof.
  induction 1 as [|doc h l hits (stats & score & _ & _ & ->) _ IH];
    [done|].
  rewrite fmap_cons, IH. done.
Qed.

Lemma is_hit_rounded g tokens (md : gmap string metadata) doc h :
  is_hit g tokens md doc h →
  ∃ stats score,
    md !! hit_url h = Some stats
    ∧ compute_score g (hit_url h) tokens stats = Ok score
    ∧ hit_title h = title stats
    ∧ hit_description h = description stats
    ∧ (∃ n : Z, hit_score h = IZR n / 1000)
    ∧ Rabs (hit_score h - score) <= 1 / 2000.
Proof.
  intros (stats & score & Hmd & Hscore & ->). exists stats, score.
  destruct (round3_near score) as (n & Hn & Hnear). simpl.
  repeat (split; [done|]). split; [by exists n | done].
Qed.

End Ranking.

(** X6.  A query without any token left after tokenization and stopword
    removal (empty, or made of whitespace, punctuation and stopwords
    only) is answered without error, whatever the indexes and the
    metadata hold: no document is filtered in and the result list is
    empty. *)
Theorem search_without_tokens (g : Browser.globals) (q : string)
    (documents_metadata : gmap string Browser.metadata) :
  Browser.normalize g (Browser.tokenize q) = [] →
  Browser.process_query g q = []
  ∧ Browser.filter_documents g [] = Ok ∅
  ∧ Browser.search g q documents_metadata
    = Ok {| Browser.query := q;
            Browser.total_documents := size documents_metadata;
            Browser.filtered_documents := 0;
            Browser.results := [] |}.
Proof.
  intros Hq.
  assert (Hp : Browser.process_query g q = []).
  { unfold Browser.process_query, Browser.expand_with_synonyms.
    rewrite Hq. simpl. apply elements_empty. }
  assert (Hf : Browser.filter_documents g [] = Ok ∅).
  { unfold Browser.filter_documents, Browser.wired. simpl.
    by rewrite !(left_id_L ∅ (∪)). }
  split; [done|]. split; [done|].
  unfold Browser.search. rewrite Hp, Hf, bind_Ok.
  rewrite elements_empty. done.
Qed.

Lemma search_without_tokens_witness :
  Browser.search beanie_globals "The, a -- !" {[ "/2" := blue_scarf_stats ]}
  = Ok {| Browser.query := "The, a -- !";
          Browser.total_documents := 1;
          Browser.filtered_documents := 0;
          Browser.results := [] |}.
Proof.
  assert (Hq : Browser.normalize beanie_globals
                 (Browser.tokenize "The, a -- !") = [])
    by (vm_compute; reflexivity).
  exact (proj2 (proj2 (search_without_tokens beanie_globals "The, a -- !"
                         {[ "/2" := blue_scarf_stats ]} Hq))).
Defined.

(** X7.  When every candidate of the processed query has metadata and
    is scored without error, [search] returns the query, the number of
    metadata records, the number of candidates, and one result per
    candidate: each carries the candidate's url, the title and
    description of its metadata record and its score rounded to three
    decimals; the results are in descending order of rounded score,
    results of equal score staying in the order the candidates were
    visited. *)
Theorem search_results (g : Browser.globals) (q : string)
    (documents_metadata : gmap string Browser.metadata)
    (candidates : gset string) :
  Browser.filter_documents g (Browser.process_query g q) = Ok candidates →
  (∀ doc, doc ∈ candidates →
          ∃ stats, documents_metadata !! doc = Some stats
                   ∧ is_Ok (Browser.compute_score g doc
                              (Browser.process_query g q) stats)) →
  ∃ out hits,
    Browser.search g q documents_metadata = Ok out
    ∧ Browser.query out = q
    ∧ Browser.total_documents out = size documents_metadata
    ∧ Browser.filtered_documents out = size candidates
    ∧ Forall2 (is_hit g (Browser.process_query g q) documents_metadata)
        (elements candidates) hits
    ∧ Browser.results out ≡ₚ hits
    ∧ StronglySorted score_ge (Browser.results out)
    ∧ ∀ s, with_score s (Browser.results out) = with_score s hits.
Proof.
  intros Hfilter Hall. unfold Browser.search. rewrite Hfilter, bind_Ok.
  destruct (score_candidates_hits g (Browser.process_query g q)
              documents_metadata [] (elements candidates))
    as (hits & -> & Hhits).
  { intros doc Hdoc%elem_of_elements. by apply Hall. }
  rewrite bind_Ok. eexists _, hits. split; [reflexivity|]. simpl.
  repeat (split; [done|]).
  split; [apply sort_desc_perm|].
  split; [apply sort_desc_sorted | intros s; apply with_score_sort_desc].
Qed.

Lemma search_results_witness :
  ∃ out,
    Browser.search beanie_globals "blue beanie"
      {[ "/1" := red_beanie_stats; "/2" := blue_scarf_stats ]} = Ok out
    ∧ Browser.filtered_documents out = 2
    ∧ StronglySorted score_ge (Browser.results out).
Proof.
  assert (Hf : Browser.filter_documents beanie_globals
                 (Browser.process_query beanie_globals "blue beanie")
               = Ok {[ "/1"; "/2" ]})
    by (vm_compute; reflexivity).
  destruct (search_results beanie_globals "blue beanie"
              {[ "/1" := red_beanie_stats; "/2" := blue_scarf_stats ]}
              {[ "/1"; "/2" ]} Hf)
    as (out & hits & Hs & _ & _ & Hn & _ & _ & Hsorted & _).
  - intros doc [->%elem_of_singleton| ->%elem_of_singleton]%elem_of_union.
    + exists red_beanie_stats. split; [reflexivity|].
      apply compute_score_ok;
        apply (bool_decide_unpack _); vm_compute; reflexivity.
    + exists blue_scarf_stats. split; [reflexivity|].
      apply compute_score_ok;
        apply (bool_decide_unpack _); vm_compute; reflexivity.
  - exists out. split; [exact Hs|]. split; [|exact Hsorted].
    rewrite Hn. reflexivity.
Defined.

(** X8.  When every candidate of the processed query has metadata and
    is scored without error, [search] lists every candidate exactly
    once, and each result carries the title and description of the
    metadata record of its url and a score that is a multiple of 0.001
    at distance at most 0.0005 from the value of [compute_score] for
    that url. *)
Theorem search_scores_rounded (g : Browser.globals) (q : string)
    (documents_metadata : gmap string Browser.metadata)
    (candidates : gset string) :
  Browser.filter_documents g (Browser.process_query g q) = Ok candidates →
  (∀ doc, doc ∈ candidates →
          ∃ stats, documents_metadata !! doc = Some stats
                   ∧ is_Ok (Browser.compute_score g doc
                              (Browser.process_query g q) stats)) →
  ∃ out,
    Browser.search g q documents_metadata = Ok out
    ∧ Browser.hit_url <$> Browser.results out ≡ₚ elements candidates
    ∧ Forall (λ h,
        ∃ stats score,
          documents_metadata !! Browser.hit_url h = Some stats
          ∧ Browser.compute_score g (Browser.hit_url h)
              (Browser.process_query g q) stats = Ok score
          ∧ Browser.hit_title h = Browser.title stats
          ∧ Browser.hit_description h = Browser.description stats
          ∧ (∃ n : Z, Browser.hit_score h = IZR n / 1000)%R
          ∧ (Rabs (Browser.hit_score h - score) <= 1 / 2000)%R)
        (Browser.results out).
Proof.
  intros Hfilter Hall. unfold Browser.search. rewrite Hfilter, bind_Ok.
  destruct (score_candidates_hits g (Browser.process_query g q)
              documents_metadata [] (elements candidates))
    as (hits & -> & Hhits).
  { intros doc Hdoc%elem_of_elements. by apply Hall. }
  rewrite bind_Ok. eexists. split; [reflexivity|]. simpl. split.
  - rewrite sort_desc_perm. by rewrite (is_hit_urls _ _ _ _ _ Hhits).
  - rewrite sort_desc_perm. apply Forall_forall. intros h Hh.
    apply (list_elem_of_lookup_1 hits) in Hh as [i Hi].
    destruct (Forall2_lookup_r _ _ _ _ _ Hhits Hi) as (doc & _ & Hhit).
    by apply is_hit_rounded in Hhit.
Qed.

Lemma search_scores_rounded_witness :
  ∃ out,
    Browser.search beanie_globals "blue beanie"
      {[ "/1" := red_beanie_stats; "/2" := blue_scarf_stats ]} = Ok out
    ∧ Browser.hit_url <$> Browser.results out
      ≡ₚ elements ({[ "/1"; "/2" ]} : gset string).
Proof.
  assert (Hf : Browser.filter_documents beanie_globals
                 (Browser.process_query beanie_globals "blue beanie")
               = Ok {[ "/1"; "/2" ]})
    by (vm_compute; reflexivity).
  destruct (search_scores_rounded beanie_globals "blue beanie"
              {[ "/1" := red_beanie_stats; "/2" := blue_scarf_stats ]}
              {[ "/1"; "/2" ]} Hf)
    as (out & Hs & Hurls & _).
  - intros doc [->%elem_of_singleton| ->%elem_of_singleton]%elem_of_union.
    + exists red_beanie_stats. split; [reflexivity|].
      apply compute_score_ok;
        apply (bool_decide_unpack _); vm_compute; reflexivity.
    + exists blue_scarf_stats. split; [reflexivity|].
      apply compute_score_ok;
        apply (bool_decide_unpack _); vm_compute; reflexivity.
  - exists out. by split.
Defined.

(** ** Outcome of the composite score *)

Section ScoreOutcome.
Import Browser.
Local Open Scope R_scope.

Lemma add_tf_outcome w index t doc score :
  add_tf w index t doc score
  = if unreadable index doc t then Raise TypeError
    else Ok (score + w * INR (posting_length index doc t)).
Proof.
  unfold add_tf, unreadable, posting_length.
  destruct (index !! t) as [[p|l|n m r]|] eqn:E; simpl.
  - case_bool_decide as Hin.
    + apply elem_of_dom in Hin as [positions Hl]. by rewrite Hl.
    + apply not_elem_of_dom in Hin. rewrite Hin. simpl. f_equal. lra.
  - destruct (bool_decide (doc ∈ l)); [done|]. f_equal. lra.
  - destruct (bool_decide (doc ∈ stats_keys)); [done|]. f_equal. lra.
  - f_equal. lra.
Qed.

Lemma compute_score_loop_outcome g doc tokens score :
  foldM (λ (score : R) t,
           score ← add_tf 3 (title_index g) t doc score;
           score ← add_tf 1 (description_index g) t doc score;
           add_tf 0.5 (reviews_index g) t doc score) score tokens
  = if existsb (λ t, unreadable (title_index g) doc t
                     || unreadable (description_index g) doc t
                     || unreadable (reviews_index g) doc t) tokens
    then Raise TypeError
    else Ok (score
             + 3 * INR (term_frequency (title_index g) tokens doc)
             + 1 * INR (term_frequency (description_index g) tokens doc)
             + 0.5 * INR (term_frequency (reviews_index g) tokens doc)).
Proof.
  revert score. induction tokens as [|t ts IH]; intros score.
  - simpl. f_equal. lra.
  - rewrite foldM_cons. cbn [existsb].
    rewrite (add_tf_outcome 3).
    destruct (unreadable (title_index g) doc t); [done|].
    rewrite bind_Ok. cbv beta. rewrite (add_tf_outcome 1).
    destruct (unreadable (description_index g) doc t); [done|].
    rewrite bind_Ok. cbv beta. rewrite (add_tf_outcome 0.5).
    destruct (unreadable (reviews_index g) doc t); [done|].
    rewrite bind_Ok, IH. cbn [orb].
    destruct (existsb _ ts); [done|]. f_equal.
    rewrite !term_frequency_cons, !plus_INR. lra.
Qed.

Lemma compute_score_formula g doc tokens stats :
  compute_score g doc tokens stats
  = if existsb (λ t, unreadable (title_index g) doc t
                     || unreadable (description_index g) doc t
                     || unreadable (reviews_index g) doc t) tokens
    then Raise TypeError
    else Ok (3 * INR (term_frequency (title_index g) tokens doc)
             + 1 * INR (term_frequency (description_index g) tokens doc)
             + 0.5 * INR (term_frequency (reviews_index g) tokens doc)
             + 5 * INR (exact_match_score tokens (title_tokens stats))
             + 0.1 * INR (review_count stats)).
Proof.
  unfold compute_score. rewrite compute_score_loop_outcome.
  destruct (existsb _ tokens); [done|]. rewrite bind_Ok. f_equal. lra.
Qed.

End ScoreOutcome.


(** X9.  [compute_score] raises [TypeError], and nothing else, exactly
    when for some query token one of the title, description and reviews
    indexes stores an entry that contains the document without being a
    posting dict; otherwise it returns the weighted sum of the three
    term frequencies, the exact-match bonus and the review count. *)
Theorem compute_score_outcome (g : Browser.globals) (doc : string)
    (tokens : list string) (stats : Browser.metadata) :
  Browser.compute_score g doc tokens stats
  = if existsb (λ t, unreadable (Browser.title_index g) doc t
                     || unreadable (Browser.description_index g) doc t
                     || unreadable (Browser.reviews_index g) doc t) tokens
    then Raise TypeError
    else Ok (3 * INR (term_frequency (Browser.title_index g) tokens doc)
             + 1 * INR (term_frequency (Browser.description_index g)
                          tokens doc)
             + 0.5 * INR (term_frequency (Browser.reviews_index g)
                            tokens doc)
             + 5 * INR (Browser.exact_match_score tokens
                          (Browser.title_tokens stats))
             + 0.1 * INR (Browser.review_count stats))%R.
Proof. apply compute_score_formula. Qed.



(** ** BM25 on a well-formed length table *)

Section BM25Scores.
Import Browser.
Local Open Scope R_scope.


Lemma sum_values_nonneg (doc_lengths : gmap string Z) :
  map_Forall (λ _ v, (0 <= v)%Z) doc_lengths →
  ∀ url, (0 <= default 1 (doc_lengths !! url))%Z.
Proof.
  intros Hall url. destruct (doc_lengths !! url) as [v|] eqn:E; simpl.
  - by apply (Hall url).
  - lia.
Qed.

Lemma mean_length_pos (doc_lengths : gmap string Z) :
  doc_lengths ≠ ∅ → (0 < sum_values doc_lengths)%Z →
  0 < mean_length doc_lengths.
Proof.
  intros Hne Hsum. unfold mean_length. apply Rdiv_lt_0_compat.
  - by apply IZR_lt.
  - apply lt_0_INR.
    assert (size doc_lengths ≠ 0%nat)
      by (intros H; by apply map_size_empty_iff in H).
    lia.
Qed.

Lemma bm25_avgdl (doc_lengths : gmap string Z) :
  doc_lengths ≠ ∅ →
  py_div (IZR (sum_values doc_lengths)) (INR (size doc_lengths))
  = Ok (mean_length doc_lengths).
Proof.
  intros Hne. apply py_div_ok. apply not_0_INR.
  intros H. by apply map_size_empty_iff in H.
Qed.

Section Loop.
Variable index : gmap string entry.
Variable doc_lengths : gmap string Z.
Hypothesis lengths_nonneg : map_Forall (λ _ v, (0 <= v)%Z) doc_lengths.
Hypothesis avgdl_pos : 0 < mean_length doc_lengths.

Lemma bm25_posting_value df scores item :
  bm25_posting doc_lengths df (size doc_lengths)
      (mean_length doc_lengths) scores item
  = Ok (add_posting doc_lengths df scores item).
Proof.
  destruct item as [url positions]. unfold bm25_posting, add_posting.
  rewrite bm25_score_ok; [done|..].
  - pose proof (pos_INR df). lra.
  - apply log_argument_pos; apply pos_INR.
  - lra.
  - pose proof (pos_INR (length positions)).
    assert (0 < saturation (IZR (default 1%Z (doc_lengths !! url)))
                  (mean_length doc_lengths)).
    { apply saturation_pos; [|done]. apply IZR_le.
      by apply sum_values_nonneg. }
    lra.
Qed.

Lemma bm25_postings_value df scores l :
  foldM (bm25_posting doc_lengths df (size doc_lengths)
      (mean_length doc_lengths)) scores l
  = Ok (foldl (add_posting doc_lengths df) scores l).
Proof.
  revert scores; induction l as [|item l IH]; intros scores; [done|].
  by rewrite foldM_cons, bm25_posting_value, bind_Ok, IH.
Qed.

Lemma add_postings_lookup df (p : gmap string (list nat)) scores l url :
  NoDup l.*1 → (∀ u pos, (u, pos) ∈ l ↔ p !! u = Some pos) →
  foldl (add_posting doc_lengths df) scores l !! url
  = match p !! url with
    | Some positions =>
        Some (default 0 (scores !! url)
              + bm25_value (INR (length positions)) (INR df)
                  (IZR (default 1%Z (doc_lengths !! url)))
                  (mean_length doc_lengths) (INR (size doc_lengths)))
    | None => scores !! url
    end.
Proof.
  revert p scores; induction l as [|[u pos] l IH]; intros p scores Hnd Hp.
  - simpl. destruct (p !! url) as [positions|] eqn:E; [|done].
    apply Hp in E. by apply elem_of_nil in E.
  - cbn [foldl]. simpl in Hnd. apply NoDup_cons in Hnd as [Hu Hnd].
    rewrite (IH (delete u p)); [|done|].
    + unfold add_posting. simpl.
      destruct (decide (url = u)) as [->|Hne].
      * rewrite lookup_delete_eq, lookup_insert_eq.
        assert (p !! u = Some pos) as -> by (apply Hp; by left). done.
      * rewrite lookup_delete_ne, lookup_insert_ne by done. done.
    + intros u' pos'. rewrite lookup_delete_Some, <- Hp, elem_of_cons.
      split.
      * intros Hin. split; [|by right]. intros ->. apply Hu.
        apply list_elem_of_fmap. by exists (u', pos').
      * intros [Hne [[= -> ->]|Hin]]; done.
Qed.

Lemma bm25_token_value scores t :
  positional index →
  ∃ scores',
    bm25_token index doc_lengths (size doc_lengths)
      (mean_length doc_lengths) scores t = Ok scores'
    ∧ ∀ url,
        scores' !! url
        = if decide (url ∈ posting_urls index t)
          then Some (default 0 (scores !! url)
                     + bm25_term index doc_lengths url t)
          else scores !! url.
Proof.
  intros Hpos. unfold bm25_token, posting_urls, bm25_term.
  destruct (index !! t) as [e|] eqn:E.
  - specialize (Hpos _ _ E). destruct e as [p| |]; try done.
    cbv zeta. rewrite bm25_postings_value. eexists. split; [done|].
    intros url. rewrite (add_postings_lookup _ p).
    + destruct (p !! url) as [positions|] eqn:Hu.
      * rewrite decide_True; [done|]. by apply elem_of_dom.
      * rewrite decide_False; [done|]. by apply not_elem_of_dom.
    + apply NoDup_fst_map_to_list.
    + intros u pos. apply elem_of_map_to_list.
  - exists scores. split; [done|]. intros url.
    rewrite decide_False; [done|]. apply not_elem_of_empty.
Qed.

Lemma bm25_tokens_value scores tokens :
  positional index →
  ∃ scores',
    foldM (bm25_token index doc_lengths (size doc_lengths)
      (mean_length doc_lengths)) scores tokens = Ok scores'
    ∧ ∀ url,
        scores' !! url
        = if decide (is_Some (scores !! url) ∨ url ∈ any_urls tokens index)
          then Some (default 0 (scores !! url)
                     + bm25_sum index doc_lengths tokens url)
          else None.
Proof.
  intros Hpos. revert scores.
  induction tokens as [|t ts IH]; intros scores.
  - exists scores. split; [done|]. intros url. cbn [bm25_sum foldr].
    destruct (scores !! url) as [s|] eqn:E.
    + rewrite decide_True by (left; by eexists). simpl. f_equal. lra.
    + rewrite decide_False; [done|]. intros [[? ?]|H]; [done|].
      apply elem_of_any_urls in H as (t & Ht & _). by apply elem_of_nil in Ht.
  - destruct (bm25_token_value scores t Hpos) as (scores1 & H1 & Hl1).
    destruct (IH scores1) as (scores' & H' & Hl').
    exists scores'. rewrite foldM_cons, H1, bind_Ok. split; [done|].
    intros url. rewrite Hl', Hl1.
    assert (Hany : url ∈ any_urls (t :: ts) index
                   ↔ url ∈ posting_urls index t ∨ url ∈ any_urls ts index).
    { unfold any_urls. rewrite fmap_cons. cbn [union_list foldr].
      by rewrite elem_of_union. }
    assert (Hterm : url ∉ posting_urls index t →
                    bm25_term index doc_lengths url t = 0).
    { unfold posting_urls, bm25_term.
      destruct (index !! t) as [[p| |]|]; try done.
      intros Hn%not_elem_of_dom. by rewrite Hn. }
    cbn [bm25_sum foldr]. fold (bm25_sum index doc_lengths ts url).
    destruct (decide (url ∈ posting_urls index t)) as [Hin|Hin].
    + rewrite decide_True by (left; by eexists).
      rewrite decide_True by (right; apply Hany; by left).
      simpl. f_equal. lra.
    + rewrite (Hterm Hin).
      destruct (decide (is_Some (scores !! url) ∨ url ∈ any_urls ts index))
        as [Hd|Hd].
      * rewrite decide_True by (rewrite Hany; tauto). f_equal. lra.
      * rewrite decide_False; [done|]. rewrite Hany. tauto.
Qed.

End Loop.


End BM25Scores.

(** X11.  On a text index and a non-empty table of non-negative
    document lengths that are not all zero, [bm25] returns a score
    mapping whose keys are exactly the documents having a posting under
    at least one query token; the score of such a document is the sum,
    over the query tokens, of the BM25 term of its posting (term
    frequency the length of the position list, document frequency the
    number of postings of the token, document length 1 when the table
    has none for the url). *)
Theorem bm25_scores (tokens : list string)
    (index : gmap string Browser.entry) (doc_lengths : gmap string Z) :
  positional index →
  doc_lengths ≠ ∅ →
  map_Forall (λ _ v, (0 <= v)%Z) doc_lengths →
  (0 < Browser.sum_values doc_lengths)%Z →
  ∃ scores,
    Browser.bm25 tokens index doc_lengths = Ok scores
    ∧ (∀ url, is_Some (scores !! url)
              ↔ ∃ t, t ∈ tokens ∧ has_posting index t url)
    ∧ ∀ url, is_Some (scores !! url) →
             scores !! url = Some (bm25_sum index doc_lengths tokens url).
Proof.
  intros Hpos Hne Hlen Hsum.
  pose proof (mean_length_pos doc_lengths Hne Hsum) as Havg.
  destruct (bm25_tokens_value index doc_lengths Hlen Havg ∅ tokens Hpos)
    as (scores & Hs & Hl).
  exists scores. unfold Browser.bm25. rewrite bm25_avgdl, bind_Ok by done.
  split; [exact Hs|].
  assert (Hkey : ∀ url, scores !! url
                        = if decide (url ∈ any_urls tokens index)
                          then Some (bm25_sum index doc_lengths tokens url)
                          else None).
  { intros url. rewrite Hl, lookup_empty.
    destruct (decide (url ∈ any_urls tokens index)) as [Hin|Hin].
    - rewrite decide_True by (by right). simpl. f_equal. lra.
    - rewrite decide_False; [done|]. by intros [[? ?]|?]. }
  split.
  - intros url. rewrite Hkey.
    case_decide as Hin; rewrite elem_of_any_urls in Hin; split.
    + intros _. destruct Hin as (t & Ht & Hu). exists t. split; [done|].
      apply posting_urls_contains; [|done].
      destruct (index !! t) as [e|] eqn:E; [|done].
      specialize (Hpos _ _ E). by destruct e.
    + by eexists.
    + by intros [? ?].
    + intros (t & Ht & Hp). destruct Hin. exists t. split; [done|].
      apply posting_urls_contains; [|done].
      destruct (index !! t) as [e|] eqn:E; [|done].
      specialize (Hpos _ _ E). by destruct e.
  - intros url. rewrite Hkey. case_decide; [done | by intros [? ?]].
Qed.

Lemma bm25_scores_witness :
  ∃ scores,
    Browser.bm25 ["red"; "scarf"] (Browser.title_index beanie_globals)
      {[ "/1" := 3%Z; "/2" := 2%Z ]} = Ok scores
    ∧ is_Some (scores !! "/1") ∧ is_Some (scores !! "/2").
Proof.
  destruct (bm25_scores ["red"; "scarf"] (Browser.title_index beanie_globals)
              {[ "/1" := 3%Z; "/2" := 2%Z ]})
    as (scores & Hs & Hkeys & _).
  - apply (bool_decide_unpack _). vm_compute. reflexivity.
  - intros H. apply (f_equal (λ m, m !! "/1")) in H. discriminate.
  - apply (bool_decide_unpack _). vm_compute. reflexivity.
  - vm_compute. reflexivity.
  - exists scores. split; [exact Hs|]. split; apply Hkeys.
    + exists "red". split; [by left|].
      eexists. split; [reflexivity|]. reflexivity.
    + exists "scarf". split; [by right; left|].
      eexists. split; [reflexivity|]. reflexivity.
Defined.





(** ** Document metadata *)

Section Metadata.
Import Browser.

Lemma complete_dec p : {complete p} + {¬ complete p}.
Proof.
  unfold complete. destruct (p_url p), (p_title p);
    (left; split; by eexists) || (right; intros [[? ?] [? ?]]; done).
Qed.

Lemma metadata_loop g (products : list product) (md : gmap string metadata) :
  foldM (λ (md : gmap string metadata) p,
           url ← required_key (p_url p);
           ttl ← required_key (p_title p);
           let descr := default EmptyString (p_description p) in
           let reviews := default [] (p_reviews p) in
           let ttl_tokens := normalize g (tokenize ttl) in
           Ok (<[url := {| title := ttl;
                           description := descr;
                           title_tokens := ttl_tokens;
                           review_count := length reviews;
                           doc_length :=
                             length (normalize g (tokenize descr)) |}]> md))
        md products
  = if decide (Forall complete products)
    then Ok (foldl (add_product g) md products)
    else Raise KeyError.
Proof.
  revert md; induction products as [|p ps IH]; intros md.
  - by rewrite decide_True.
  - rewrite foldM_cons. cbn [foldl]. unfold add_product at 2, complete.
    destruct (p_url p) as [u|] eqn:Hu; simpl.
    + destruct (p_title p) as [ttl|] eqn:Ht; simpl.
      * rewrite IH. destruct (decide (Forall complete ps)) as [Hall|Hall].
        -- rewrite decide_True; [done|]. constructor; [|done].
           unfold complete. rewrite Hu, Ht. split; by eexists.
        -- rewrite decide_False; [done|]. by intros [_ ?]%Forall_cons.
      * rewrite decide_False; [done|]. intros [[_ [? ?]] _]%Forall_cons.
        unfold complete in *. congruence.
    + rewrite decide_False; [done|]. intros [[[? ?] _] _]%Forall_cons.
      congruence.
Qed.

Lemma add_products_keys g products (md : gmap string metadata) u :
  is_Some (foldl (add_product g) md products !! u)
  ↔ is_Some (md !! u)
    ∨ ∃ p, p ∈ products ∧ complete p ∧ p_url p = Some u.
Proof.
  revert md; induction products as [|p ps IH]; intros md; cbn [foldl].
  - split; [by left|]. intros [?|(p & Hp & _)]; [done|].
    by apply elem_of_nil in Hp.
  - rewrite IH. unfold add_product at 1, complete.
    split.
    + intros [Hmd|(p' & Hin & Hc & Hu')].
      * destruct (p_url p) as [u'|] eqn:Hu; [|by left].
        destruct (p_title p) as [ttl|] eqn:Ht; [|by left].
        destruct (decide (u' = u)) as [->|Hne].
        -- right. exists p. split; [by left|].
           rewrite Hu, Ht. repeat split; by eexists.
        -- rewrite lookup_insert_ne in Hmd by done. by left.
      * right. exists p'. split; [by right | done].
    + intros [Hmd|(p' & Hin & Hc & Hu')].
      * left. destruct (p_url p) as [u'|]; [|done].
        destruct (p_title p) as [ttl|]; [|done].
        destruct (decide (u' = u)) as [->|Hne].
        -- rewrite lookup_insert_eq. by eexists.
        -- by rewrite lookup_insert_ne.
      * apply elem_of_cons in Hin as [->|Hin].
        -- left. destruct Hc as [_ [ttl Ht]]. rewrite Hu', Ht.
           rewrite lookup_insert_eq. by eexists.
        -- right. exists p'. done.
Qed.

Lemma add_products_other g products (md : gmap string metadata) u :
  (∀ p, p ∈ products → p_url p ≠ Some u) →
  foldl (add_product g) md products !! u = md !! u.
Proof.
  revert md; induction products as [|p ps IH]; intros md Hne; [done|].
  cbn [foldl]. rewrite IH by (intros; apply Hne; by right).
  unfold add_product. destruct (p_url p) as [u'|] eqn:Hu; [|done].
  destruct (p_title p); [|done]. apply lookup_insert_ne.
  intros ->. by apply (Hne p); [left|].
Qed.

Lemma add_products_last g before p after (md : gmap string metadata)
    u ttl :
  p_url p = Some u → p_title p = Some ttl →
  (∀ p', p' ∈ after → p_url p' ≠ Some u) →
  foldl (add_product g) md (before ++ p :: after) !! u
  = Some (product_record g ttl p).
Proof.
  intros Hu Ht Hafter. rewrite foldl_app. cbn [foldl].
  rewrite add_products_other by done.
  unfold add_product. rewrite Hu, Ht. apply lookup_insert_eq.
Qed.

End Metadata.

(** X14.  [build_documents_metadata] raises [KeyError] exactly when
    some product lacks its [url] or [title] key.  Otherwise it returns a
    mapping whose keys are the urls of the products; the record under a
    url is the one of the last product carrying it: its title, its
    description (empty when absent), the normalized title tokens, the
    length of its [reviews] list (0 when absent) and the number of
    normalized description tokens. *)
Theorem build_documents_metadata_outcome (g : Browser.globals)
    (products : list Browser.product) :
  if decide (Forall complete products)
  then ∃ md,
         Browser.build_documents_metadata g products = Ok md
         ∧ (∀ u, is_Some (md !! u)
                 ↔ ∃ p, p ∈ products ∧ Browser.p_url p = Some u)
         ∧ ∀ before p after u ttl,
             products = before ++ p :: after →
             Browser.p_url p = Some u → Browser.p_title p = Some ttl →
             (∀ p', p' ∈ after → Browser.p_url p' ≠ Some u) →
             md !! u = Some (product_record g ttl p)
  else Browser.build_documents_metadata g products = Raise KeyError.
Proof.
  unfold Browser.build_documents_metadata. rewrite metadata_loop.
  destruct (decide (Forall complete products)) as [Hall|Hall]; [|done].
  eexists. split; [done|]. split.
  - intros u. rewrite add_products_keys, lookup_empty. split.
    + intros [[? ?]|(p & Hp & _ & Hu)]; [done | eauto].
    + intros (p & Hp & Hu). right. exists p. split; [done|].
      split; [|done]. rewrite Forall_forall in Hall. by apply Hall.
  - intros before p after u ttl -> Hu Ht Hafter.
    by apply add_products_last.
Qed.

(** * Further properties of the index builder *)

(** ** Keys of the inverted index *)

Section InvertedIndexKeys.
Import IndexBuilder.

Lemma positions_from_nonempty k t toks :
  t ∈ toks → positions_from k t toks ≠ [].
Proof.
  revert k; induction toks as [|x toks IH]; intros k Hin.
  - by apply elem_of_nil in Hin.
  - simpl. case_decide as Hx; [done|].
    apply elem_of_cons in Hin as [->|Hin]; [done | by apply IH].
Qed.

Lemma store_tokens_lookup (pm : gmap string (list nat))
    (u : option string) (l : list string)
    (index : gmap string (gmap (option string) (list nat)))
    (token : string) :
  foldl (λ (index : gmap string (gmap (option string) (list nat)))
            token0,
            <[token0 := <[u := default [] (pm !! token0)]>
                          (default ∅ (index !! token0))]> index)
        index l !! token
  = if decide (token ∈ l)
    then Some (<[u := default [] (pm !! token)]>
                 (default ∅ (index !! token)))
    else index !! token.
Proof.
  revert index; induction l as [|x l IH]; intros index; cbn [foldl].
  - rewrite decide_False; [done|]. apply not_elem_of_nil.
  - rewrite IH. destruct (decide (token = x)) as [->|Hne].
    + rewrite lookup_insert_eq.
      rewrite (decide_True (P := x ∈ x :: l)) by (by left).
      destruct (decide (x ∈ l)); [|done].
      simpl. by rewrite insert_insert_eq.
    + rewrite lookup_insert_ne by done.
      destruct (decide (token ∈ l)) as [Hin|Hin].
      * by rewrite decide_True by (by right).
      * rewrite decide_False; [done|]. by intros [?|?]%elem_of_cons.
Qed.

Lemma index_document_lookup fld index doc token :
  index_document fld index doc !! token
  = if decide (token ∈ field_tokens fld doc)
    then Some (<[url doc := positions_from 0 token (field_tokens fld doc)]>
                 (default ∅ (index !! token)))
    else index !! token.
Proof.
  unfold index_document, field_tokens.
  rewrite store_tokens_lookup, positions_map_lookup.
  destruct (decide (token ∈ tokenize _)) as [Hin|Hin].
  - rewrite decide_True; [done|].
    by apply elem_of_elements, elem_of_list_to_set.
  - rewrite decide_False; [done|].
    by intros ?%elem_of_elements%elem_of_list_to_set.
Qed.

Lemma build_inverted_index_keys documents fld index token :
  is_Some (foldl (index_document fld) index documents !! token)
  ↔ is_Some (index !! token)
    ∨ ∃ doc, doc ∈ documents ∧ token ∈ field_tokens fld doc.
Proof.
  revert index; induction documents as [|d ds IH]; intros index;
    cbn [foldl].
  - split; [by left|]. intros [?|(doc & Hd & _)]; [done|].
    by apply elem_of_nil in Hd.
  - rewrite IH, index_document_lookup. split.
    + intros [Hs|(doc & Hd & Ht)].
      * destruct (decide (token ∈ field_tokens fld d)); [|by left].
        right. exists d. split; [by left | done].
      * right. exists doc. split; [by right | done].
    + intros [Hs|(doc & Hd & Ht)].
      * left. destruct (decide (token ∈ field_tokens fld d)); [|done].
        by eexists.
      * apply elem_of_cons in Hd as [->|Hd].
        -- left. rewrite decide_True by done. by eexists.
        -- right. by exists doc.
Qed.

Lemma build_inverted_index_nonempty (documents : list document)
    (fld : string)
    (index : gmap string (gmap (option string) (list nat))) :
  (∀ (token : string) (m : gmap (option string) (list nat)),
     index !! token = Some m → m ≠ ∅) →
  ∀ (token : string) (m : gmap (option string) (list nat)),
    foldl (index_document fld) index documents !! token = Some m → m ≠ ∅.
Proof.
  revert index; induction documents as [|d ds IH]; intros index Hne;
    cbn [foldl]; [done|].
  apply IH. intros token m. rewrite index_document_lookup.
  destruct (decide (token ∈ field_tokens fld d)).
  - intros [= <-]. apply insert_non_empty.
  - apply Hne.
Qed.

End InvertedIndexKeys.

(** X15.  The keys of the index built by [build_inverted_index] are
    exactly the tokens occurring in the tokenized field text of at least
    one document; no key is a stopword of the builder, every key is a
    non-empty run of lower-case, punctuation-free, non-blank characters;
    no token is mapped to an empty url dict and no url to an empty
    position list. *)
Theorem build_inverted_index_tokens
    (documents : list IndexBuilder.document) (fld token : string) :
  (is_Some (IndexBuilder.build_inverted_index documents fld !! token)
   ↔ ∃ doc, doc ∈ documents ∧ token ∈ field_tokens fld doc)
  ∧ (is_Some (IndexBuilder.build_inverted_index documents fld !! token) →
     (token ∉ IndexBuilder.STOPWORDS) ∧ word token)
  ∧ (∀ by_url,
       IndexBuilder.build_inverted_index documents fld !! token
       = Some by_url →
       by_url ≠ ∅ ∧ ∀ u positions, by_url !! u = Some positions →
                                   positions ≠ []).
Proof.
  assert (Hkeys :
    is_Some (IndexBuilder.build_inverted_index documents fld !! token)
    ↔ ∃ doc, doc ∈ documents ∧ token ∈ field_tokens fld doc).
  { unfold IndexBuilder.build_inverted_index.
    rewrite build_inverted_index_keys, lookup_empty. split.
    - by intros [[? ?]|?].
    - by right. }
  split; [exact Hkeys|]. split.
  - intros (doc & _ & Ht)%Hkeys. unfold field_tokens in Ht.
    unfold IndexBuilder.tokenize in Ht.
    apply list_elem_of_filter in Ht as [Hstop Hin]. split; [done|].
    pose proof (tokenize_tokens
                  (default EmptyString (IndexBuilder.text doc !! fld)))
      as Hw.
    rewrite Forall_forall in Hw. by apply Hw.
  - intros by_url Hb. split.
    + revert Hb. unfold IndexBuilder.build_inverted_index.
      by apply build_inverted_index_nonempty.
    + intros u positions Hu.
      assert (Hst : stored (IndexBuilder.build_inverted_index documents fld)
                      token u = Some positions)
        by (unfold stored; by rewrite Hb).
      rewrite build_inverted_index_stored in Hst.
      apply last_posting_origin in Hst as [?|(doc & _ & _ & Ht & ->)];
        [done|].
      by apply positions_from_nonempty.
Qed.

(** ** Reviews index *)

Section ReviewRecords.
Import IndexBuilder.

Lemma index_reviews_record reviews_index doc :
  ¬ unrated doc →
  index_reviews reviews_index doc
  = Ok (<[url doc := review_record doc]> reviews_index).
Proof.
  intros Hrated. unfold index_reviews, review_record, ratings_of, reviews_of.
  destruct (default [] (product_reviews doc)) as [|r rs] eqn:Hrev; [done|].
  destruct (omap rating (r :: rs)) as [|x xs] eqn:Hrat.
  - destruct Hrated. split; [by rewrite Hrev | by rewrite Hrev].
  - cbn [mean]. rewrite bind_Ok. unfold last_item.
    destruct (last (x :: xs)) as [y|] eqn:E; [done|].
    by apply last_None in E.
Qed.

Lemma build_reviews_index_records (documents : list document)
    (acc : gmap (option string) review_stats) :
  Forall (λ doc, ¬ unrated doc) documents →
  foldM index_reviews acc documents
  = Ok (foldl (λ idx doc, <[url doc := review_record doc]> idx)
          acc documents).
Proof.
  revert acc; induction documents as [|d ds IH]; intros acc Hall; [done|].
  apply Forall_cons in Hall as [Hd Hds].
  by rewrite foldM_cons, index_reviews_record, bind_Ok, IH.
Qed.

Lemma insert_records_keys (documents : list document)
    (acc : gmap (option string) review_stats) (u : option string) :
  is_Some (foldl (λ idx doc, <[url doc := review_record doc]> idx)
             acc documents !! u)
  ↔ is_Some (acc !! u) ∨ u ∈ url <$> documents.
Proof.
  revert acc; induction documents as [|d ds IH]; intros acc; cbn [foldl].
  - rewrite fmap_nil. split; [by left|].
    intros [?|H]; [done | by apply elem_of_nil in H].
  - rewrite IH, fmap_cons, elem_of_cons.
    destruct (decide (url d = u)) as [<-|Hne].
    + rewrite lookup_insert_eq. split; [by right; left|].
      intros _. left. by eexists.
    + rewrite lookup_insert_ne by done. split; [tauto|].
      intros [?|[?|?]]; [by left | done | by right].
Qed.

Lemma insert_records_other (documents : list document)
    (acc : gmap (option string) review_stats) (u : option string) :
  u ∉ url <$> documents →
  foldl (λ idx doc, <[url doc := review_record doc]> idx) acc documents !! u
  = acc !! u.
Proof.
  revert acc; induction documents as [|d ds IH]; intros acc Hu; [done|].
  cbn [foldl]. rewrite fmap_cons in Hu.
  apply not_elem_of_cons in Hu as [Hd Hds].
  rewrite IH by done. by apply lookup_insert_ne.
Qed.

Lemma review_record_facts doc :
  total_reviews (review_record doc) = length (ratings_of doc)
  ∧ (reviews_of doc = [] →
     review_record doc
     = {| total_reviews := 0; mean_mark := 0; last_rating := 0 |})
  ∧ (ratings_of doc ≠ [] →
     (mean_mark (review_record doc)
      == foldl Qplus 0 (ratings_of doc)
         / inject_Z (Z.of_nat (length (ratings_of doc))))%Q
     ∧ last (ratings_of doc) = Some (last_rating (review_record doc))).
Proof.
  unfold review_record, ratings_of.
  destruct (reviews_of doc) as [|r rs] eqn:E.
  - repeat split; done.
  - split; [done|]. split; [done|]. intros Hne. cbn [mean_mark last_rating].
    split; [apply Qred_correct|].
    destruct (last (omap rating (r :: rs))) as [y|] eqn:El; [done|].
    by apply last_None in El.
Qed.

End ReviewRecords.

(** X16.  [build_reviews_index] raises [StatisticsError] when some
    document has a non-empty review list without any rating, and
    otherwise returns an index whose keys are the urls of the documents;
    the record under a url is the one of the last document carrying it:
    [total_reviews] counts the reviews that have a rating, an empty or
    absent review list gives the all-zero record, and when a rating
    exists [mean_mark] is the arithmetic mean of the ratings and
    [last_rating] the last of them in input order. *)
Theorem build_reviews_index_contents
    (documents : list IndexBuilder.document) :
  (Exists unrated documents
   ∧ IndexBuilder.build_reviews_index documents = Raise StatisticsError)
  ∨ (Forall (λ doc, ¬ unrated doc) documents
     ∧ ∃ idx,
         IndexBuilder.build_reviews_index documents = Ok idx
         ∧ (∀ u, is_Some (idx !! u) ↔ u ∈ IndexBuilder.url <$> documents)
         ∧ ∀ before doc after,
             documents = before ++ doc :: after →
             IndexBuilder.url doc ∉ IndexBuilder.url <$> after →
             ∃ record,
               idx !! IndexBuilder.url doc = Some record
               ∧ IndexBuilder.total_reviews record
                 = length (ratings_of doc)
               ∧ (reviews_of doc = [] →
                  record = {| IndexBuilder.total_reviews := 0;
                              IndexBuilder.mean_mark := 0;
                              IndexBuilder.last_rating := 0 |})
               ∧ (ratings_of doc ≠ [] →
                  (IndexBuilder.mean_mark record
                   == foldl Qplus 0 (ratings_of doc)
                      / inject_Z (Z.of_nat (length (ratings_of doc))))%Q
                  ∧ last (ratings_of doc)
                    = Some (IndexBuilder.last_rating record))).
Proof.
  destruct (build_reviews_index_outcome documents) as [[Hex Hr]|[Hall _]];
    [by left|].
  right. split; [done|]. unfold IndexBuilder.build_reviews_index.
  rewrite build_reviews_index_records by done.
  eexists. split; [done|]. split.
  - intros u. rewrite insert_records_keys, lookup_empty. split.
    + by intros [[? ?]|?].
    + by right.
  - intros before doc after -> Hafter. exists (review_record doc).
    split; [|apply review_record_facts].
    rewrite foldl_app. cbn [foldl].
    rewrite insert_records_other by done. apply lookup_insert_eq.
Qed.

(** ** Feature indexes *)

Section FeatureIndexes.
Import IndexBuilder.

Lemma posting_entry_default l : default [] (posting_entry l) = l.
Proof. unfold posting_entry. by case_decide. Qed.

Lemma no_empty_posting_empty : no_empty_posting ∅.
Proof. intros token. by rewrite lookup_empty. Qed.

(** The loop appending a url under each token of a feature value. *)
Lemma append_url_lookup (u : string) (toks : list string)
    (fi : gmap string (list string)) (token : string) :
  no_empty_posting fi →
  no_empty_posting
    (foldl (λ (fi : gmap string (list string)) tok,
              <[tok := default [] (fi !! tok) ++ [u]]> fi) fi toks)
  ∧ default []
      (foldl (λ (fi : gmap string (list string)) tok,
                <[tok := default [] (fi !! tok) ++ [u]]> fi) fi toks
       !! token)
    = default [] (fi !! token)
      ++ replicate (length (filter (λ x, x = token) toks)) u.
Proof.
  revert fi; induction toks as [|x toks IH]; intros fi Hfi; cbn [foldl].
  - split; [done|]. by rewrite app_nil_r.
  - assert (Hfi' : no_empty_posting
                     (<[x := default [] (fi !! x) ++ [u]]> fi)).
    { intros tok. destruct (decide (tok = x)) as [->|Hne].
      - rewrite lookup_insert_eq. simpl. unfold posting_entry.
        rewrite decide_False; [done|]. by destruct (default [] (fi !! x)).
      - rewrite lookup_insert_ne by done. apply Hfi. }
    destruct (IH _ Hfi') as [Hinv Hl]. split; [done|].
    rewrite Hl, filter_cons. destruct (decide (x = token)) as [->|Hne].
    + rewrite lookup_insert_eq. simpl. by rewrite <- app_assoc.
    + by rewrite lookup_insert_ne.
Qed.

Lemma feature_index_loop (feature : string) (documents : list document)
    (acc : gmap string (list string)) (token : string) :
  no_empty_posting acc →
  no_empty_posting
    (foldl (λ (feature_indexes : gmap string (list string)) doc,
              let u := default EmptyString (url doc) in
              let features := default ∅ (product_features doc) in
              match features !! feature with
              | Some feature_value =>
                  foldl (λ (fi : gmap string (list string)) token,
                           <[token := default [] (fi !! token) ++ [u]]> fi)
                        feature_indexes (tokenize feature_value)
              | None => feature_indexes
              end) acc documents)
  ∧ default []
      (foldl (λ (feature_indexes : gmap string (list string)) doc,
                let u := default EmptyString (url doc) in
                let features := default ∅ (product_features doc) in
                match features !! feature with
                | Some feature_value =>
                    foldl (λ (fi : gmap string (list string)) token,
                             <[token := default [] (fi !! token) ++ [u]]> fi)
                          feature_indexes (tokenize feature_value)
                | None => feature_indexes
                end) acc documents !! token)
    = default [] (acc !! token) ++ feature_postings feature token documents.
Proof.
  revert acc; induction documents as [|d ds IH]; intros acc Hacc;
    cbn [foldl].
  - split; [done|]. unfold feature_postings. simpl. by rewrite app_nil_r.
  - match goal with
    | |- context [foldl _ ?a ds] =>
        assert (Ha : no_empty_posting a
                     ∧ default [] (a !! token)
                       = default [] (acc !! token)
                         ++ feature_postings feature token [d])
    end.
    { unfold feature_postings, features_of. simpl. rewrite app_nil_r.
      destruct (default ∅ (product_features d) !! feature) as [v|];
        [by apply append_url_lookup|].
      split; [done|]. by rewrite app_nil_r. }
    destruct Ha as [Hinv Hl]. destruct (IH _ Hinv) as [Hinv' Hl'].
    split; [exact Hinv'|]. etrans; [exact Hl'|].
    rewrite Hl, <- app_assoc. f_equal.
    unfold feature_postings. simpl. by rewrite app_nil_r.
Qed.

Lemma feature_index_lookup feature (documents : list document) token :
  feature_index feature documents !! token
  = posting_entry (feature_postings feature token documents).
Proof.
  unfold feature_index.
  destruct (feature_index_loop feature documents ∅ token
              no_empty_posting_empty) as [Hinv Hl].
  etrans; [exact (Hinv token)|]. f_equal.
  etrans; [exact Hl|]. by rewrite lookup_empty.
Qed.

Lemma all_features_elem (documents : list document)
    (acc : gset string) (feature : string) :
  feature ∈ foldl (λ (all_features : gset string) doc,
                     all_features ∪ dom (default ∅ (product_features doc)))
                  acc documents
  ↔ feature ∈ acc
    ∨ ∃ doc, doc ∈ documents ∧ is_Some (features_of doc !! feature).
Proof.
  revert acc; induction documents as [|d ds IH]; intros acc; cbn [foldl].
  - split; [by left|]. intros [?|(doc & Hd & _)]; [done|].
    by apply elem_of_nil in Hd.
  - rewrite IH, elem_of_union, elem_of_dom. unfold features_of. split.
    + intros [[?|?]|(doc & Hd & Hf)].
      * by left.
      * right. exists d. split; [by left | done].
      * right. exists doc. split; [by right | done].
    + intros [?|(doc & Hd & Hf)]; [by left; left|].
      apply elem_of_cons in Hd as [->|Hd]; [by left; right|].
      right. by exists doc.
Qed.

Lemma insert_features_lookup (documents : list document)
    (l : list string) (acc : gmap string (gmap string (list string)))
    (feature : string) :
  foldl (λ (all_indexes : gmap string (gmap string (list string))) feature,
           <[feature := feature_index feature documents]> all_indexes)
        acc l !! feature
  = if decide (feature ∈ l) then Some (feature_index feature documents)
    else acc !! feature.
Proof.
  revert acc; induction l as [|x l IH]; intros acc; cbn [foldl].
  - rewrite decide_False; [done|]. apply not_elem_of_nil.
  - rewrite IH. destruct (decide (feature ∈ l)) as [Hin|Hin].
    + by rewrite decide_True by (by right).
    + destruct (decide (feature = x)) as [->|Hne].
      * rewrite lookup_insert_eq. by rewrite decide_True by (by left).
      * rewrite lookup_insert_ne by done.
        rewrite decide_False; [done|]. by intros [?|?]%elem_of_cons.
Qed.

End FeatureIndexes.

(** X17.  [build_feature_indexes] returns one index per feature name
    occurring in at least one document.  In the index of a feature, the
    list under a token holds, in document order, the url of every
    document having the feature (the empty string for a document without
    url), once for every occurrence of the token in the tokenized feature
    value, so that a url can be repeated; a token without occurrence is
    not a key. *)
Theorem build_feature_indexes_postings
    (documents : list IndexBuilder.document) (feature token : string) :
  (is_Some (IndexBuilder.build_feature_indexes documents !! feature)
   ↔ ∃ doc, doc ∈ documents ∧ is_Some (features_of doc !! feature))
  ∧ ∀ fi, IndexBuilder.build_feature_indexes documents !! feature = Some fi →
          fi !! token
          = posting_entry (feature_postings feature token documents).
Proof.
  unfold IndexBuilder.build_feature_indexes.
  rewrite insert_features_lookup, lookup_empty.
  destruct (decide (feature ∈ elements _)) as [Hin|Hin].
  - apply elem_of_elements, all_features_elem in Hin as [Hin|Hin];
      [by apply not_elem_of_empty in Hin|].
    split; [split; [done | by eexists]|].
    intros fi [= <-]. apply feature_index_lookup.
  - split; [|done]. split; [by intros [? ?]|].
    intros Hex. destruct Hin. apply elem_of_elements, all_features_elem.
    by right.
Qed.

(** ** Product id and variant of a url *)

Example extract_demo :
  IndexBuilder.extract_product_id_and_variant
    "https://web-scraping.dev/product/12?variant=red-small"
  = (Some "12", Some "red-small").
Proof. vm_compute. reflexivity. Qed.

Section UrlParts.
Import IndexBuilder.

Lemma string_app_inv_nil (a b : string) :
  (a ++ b)%string = EmptyString → a = EmptyString ∧ b = EmptyString.
Proof. destruct a; [done|]. by rewrite string_app_cons. Qed.

Lemma take_digits_digits s : Text.all_chars is_digit (take_digits s) = true.
Proof.
  induction s as [|c s IH]; simpl; [done|].
  destruct (is_digit c) eqn:E; simpl; [by rewrite E, IH | done].
Qed.

Lemma take_digits_split s :
  ∃ after, s = (take_digits s ++ after)%string
           ∧ take_digits after = EmptyString.
Proof.
  induction s as [|c s (after & Hs & Ha)]; simpl.
  - by exists EmptyString.
  - destruct (is_digit c) eqn:E.
    + exists after. rewrite string_app_cons. by rewrite <- Hs.
    + exists (String c s). split; [done|]. simpl. by rewrite E.
Qed.

Lemma slash_not_digit : is_digit "/" = false.
Proof. reflexivity. Qed.

Lemma no_product_id_tail c s : no_product_id (String c s) → no_product_id s.
Proof.
  intros H before after ->. apply (H (String c before) after).
  by rewrite string_app_cons.
Qed.

Lemma search_product_id_None s :
  search_product_id s = None ↔ no_product_id s.
Proof.
  induction s as [|c s IH]; simpl.
  - split; [|done]. intros _ [|? ?] after H; by inversion H.
  - split.
    + intros Hs [|c' before] after Heq.
      * change (String c s = String "/" after) in Heq.
        injection Heq as -> <-. simpl in Hs.
        by destruct (take_digits s).
      * rewrite string_app_cons in Heq. injection Heq as <- ->.
        assert (Hs' : search_product_id (before ++ String "/" after)%string
                      = None).
        { destruct (Ascii.eqb c "/"); [|done].
          by destruct (take_digits _). }
        apply IH in Hs'. by apply (Hs' before after).
    + intros Hn. pose proof (no_product_id_tail _ _ Hn) as Hs.
      apply IH in Hs. destruct (Ascii.eqb c "/") eqn:E; [|done].
      apply Ascii.eqb_eq in E as ->.
      by rewrite (Hn EmptyString s eq_refl).
Qed.

Lemma search_product_id_Some s id :
  search_product_id s = Some id →
  id ≠ EmptyString
  ∧ Text.all_chars is_digit id = true
  ∧ ∃ before after,
      s = (before ++ String "/" (id ++ after))%string
      ∧ no_product_id (before ++ String "/" EmptyString)
      ∧ take_digits after = EmptyString.
Proof.
  revert id; induction s as [|c s IH]; intros id; simpl; [done|].
  assert (Hrec : search_product_id s = Some id →
            (Ascii.eqb c "/" = true → take_digits s = EmptyString) →
            id ≠ EmptyString
            ∧ Text.all_chars is_digit id = true
            ∧ ∃ before after,
                String c s = (before ++ String "/" (id ++ after))%string
                ∧ no_product_id (before ++ String "/" EmptyString)
                ∧ take_digits after = EmptyString).
  { intros Hs Hc.
    destruct (IH id Hs) as (Hne & Hd & before & after & -> & Hno & Ha).
    split; [done|]. split; [done|].
    exists (String c before), after. rewrite string_app_cons.
    split; [done|]. split; [|done].
    intros [|c' b'] a' Heq.
    - rewrite string_app_cons in Heq.
      change (String c (before ++ String "/" EmptyString)
              = String "/" a') in Heq.
      injection Heq as -> <-. specialize (Hc eq_refl).
      destruct before as [|d before]; [done|].
      rewrite !string_app_cons in *. simpl in *.
      by destruct (is_digit d).
    - rewrite !string_app_cons in Heq. injection Heq as <- Heq.
      by apply (Hno b' a'). }
  destruct (Ascii.eqb c "/") eqn:E.
  - destruct (take_digits s) as [|d ds] eqn:Ed.
    + intros Hs. by apply Hrec.
    + intros [= <-]. apply Ascii.eqb_eq in E as ->.
      split; [done|]. split; [rewrite <- Ed; apply take_digits_digits|].
      destruct (take_digits_split s) as (after & Hs & Ha).
      exists EmptyString, after. rewrite <- Ed, <- Hs.
      split; [done|]. split; [|done].
      intros [|c' b'] a' Heq.
      * change (String "/" EmptyString = String "/" a') in Heq.
        by injection Heq as <-.
      * rewrite string_app_cons in Heq. injection Heq as _ Heq.
        symmetry in Heq. by apply string_app_inv_nil in Heq as [_ ?].
  - intros Hs. apply Hrec; [done|]. done.
Qed.

End UrlParts.

Section UrlVariant.
Import IndexBuilder.

Lemma prefix_split p s :
  String.prefix p s = true →
  s = (p ++ drop_chars (String.length p) s)%string.
Proof.
  revert s; induction p as [|a p IH]; intros s; simpl.
  - intros _. destruct s; reflexivity.
  - destruct s as [|b s]; [done|]. intros Hp. cbn in Hp.
    destruct (ascii_dec a b) as [->|]; [|done].
    rewrite string_app_cons. f_equal. by apply IH.
Qed.

Lemma prefix_app p s : String.prefix p (p ++ s) = true.
Proof.
  induction p as [|a p IH]; [destruct s; reflexivity|].
  rewrite string_app_cons. cbn. by destruct (ascii_dec a a).
Qed.

Lemma split_at_skip sep k cur s :
  split_at sep k cur s = split_at sep 0 cur (drop_chars k s).
Proof.
  revert k; induction s as [|c s IH]; intros k.
  - by destruct k.
  - destruct k as [|k]; [done|]. simpl. apply IH.
Qed.

Lemma find_first_None sep s :
  find_first sep s = None ↔ str_contains sep s = false.
Proof.
  induction s as [|c s IH]; cbn [find_first str_contains].
  - destruct (String.prefix sep EmptyString); [done | done].
  - destruct (String.prefix sep (String c s)); [done|].
    rewrite orb_false_l, <- IH.
    destruct (find_first sep s) as [[b a]|]; done.
Qed.

Lemma find_first_Some sep s before after :
  find_first sep s = Some (before, after) →
  s = (before ++ sep ++ after)%string
  ∧ ∀ b a, s = (b ++ sep ++ a)%string →
           (String.length before <= String.length b)%nat.
Proof.
  revert before; induction s as [|c s IH]; intros before;
    cbn [find_first].
  - destruct (String.prefix sep EmptyString) eqn:E; [|done].
    intros [= <- <-]. split; [|simpl; lia].
    by apply prefix_split in E.
  - destruct (String.prefix sep (String c s)) eqn:E.
    + intros [= <- <-]. split; [|simpl; lia].
      by apply prefix_split in E.
    + destruct (find_first sep s) as [[b0 a0]|] eqn:Ef; [|done].
      intros [= <- <-]. destruct (IH b0 eq_refl) as [Hs Hleft].
      split; [by rewrite string_app_cons, <- Hs|].
      intros [|c' b] a Heq.
      * change (String c s = (sep ++ a)%string) in Heq.
        rewrite Heq, prefix_app in E. done.
      * rewrite string_app_cons in Heq. injection Heq as _ Heq.
        simpl. specialize (Hleft b a Heq). lia.
Qed.

Lemma str_contains_prefix sep s :
  String.prefix sep s = true → str_contains sep s = true.
Proof.
  intros Hp. destruct s; cbn [str_contains]; by rewrite Hp.
Qed.

Lemma str_contains_true sep s :
  str_contains sep s = true ↔ ∃ b a, s = (b ++ sep ++ a)%string.
Proof.
  split.
  - intros Hc. destruct (find_first sep s) as [[b a]|] eqn:E.
    + exists b, a. by apply find_first_Some in E as [? _].
    + apply find_first_None in E. congruence.
  - intros (b & a & ->). induction b as [|c b IH].
    + apply (str_contains_prefix sep (sep ++ a)), prefix_app.
    + rewrite string_app_cons. cbn [str_contains]. rewrite IH.
      apply orb_true_r.
Qed.

Lemma split_at_find sep cur s :
  sep ≠ EmptyString →
  split_at sep 0 cur s
  = match find_first sep s with
    | None => [string_of_list_ascii (rev cur ++ list_ascii_of_string s)]
    | Some (before, after) =>
        string_of_list_ascii (rev cur ++ list_ascii_of_string before)
        :: split_at sep 0 [] after
    end.
Proof.
  intros Hsep. revert cur; induction s as [|c s IH]; intros cur.
  - simpl. destruct sep; [done|]. simpl. by rewrite app_nil_r.
  - cbn [split_at find_first].
    destruct (String.prefix sep (String c s)) eqn:E.
    + rewrite split_at_skip, app_nil_r. do 2 f_equal.
      destruct sep as [|a sep]; [done|]. simpl. by rewrite Nat.sub_0_r.
    + rewrite IH. destruct (find_first sep s) as [[b a]|]; simpl.
      * by rewrite <- app_assoc.
      * by rewrite <- app_assoc.
Qed.

Lemma string_of_list_of_string s :
  string_of_list_ascii (list_ascii_of_string s) = s.
Proof. apply string_of_list_ascii_of_string. Qed.

Lemma str_split_second sep s :
  sep ≠ EmptyString →
  str_split sep s !! 1%nat
  = match find_first sep s with
    | Some (_, rest) => Some (up_to sep rest)
    | None => None
    end.
Proof.
  intros Hsep. unfold str_split, up_to. rewrite split_at_find by done.
  destruct (find_first sep s) as [[b rest]|]; [|done].
  rewrite split_at_find by done.
  destruct (find_first sep rest) as [[b' a']|]; simpl;
    by rewrite string_of_list_of_string.
Qed.

End UrlVariant.

(** X18.  The product id returned by
    [extract_product_id_and_variant] is the maximal run of digits that
    follows the first slash followed by a digit: it is a non-empty
    string of digits, the url reads [before/id after] where no slash of
    [before/] is followed by a digit and [after] does not start with a
    digit; there is no product id exactly when no slash of the url is
    followed by a digit. *)
Theorem extract_product_id (url : string) :
  match (IndexBuilder.extract_product_id_and_variant url).1 with
  | Some id =>
      id ≠ EmptyString
      ∧ Text.all_chars IndexBuilder.is_digit id = true
      ∧ ∃ before after,
          url = (before ++ String "/" (id ++ after))%string
          ∧ no_product_id (before ++ String "/" EmptyString)
          ∧ IndexBuilder.take_digits after = EmptyString
  | None => no_product_id url
  end.
Proof.
  unfold IndexBuilder.extract_product_id_and_variant. cbn [fst].
  destruct (IndexBuilder.search_product_id url) as [id|] eqn:E.
  - by apply search_product_id_Some.
  - by apply search_product_id_None.
Qed.

(** X19.  The variant returned by [extract_product_id_and_variant] is
    absent exactly when the url does not contain [variant=]; otherwise
    it is the text that follows the first [variant=], up to the next
    [variant=] if there is one and to the end of the url if not. *)
Theorem extract_variant (url : string) :
  match (IndexBuilder.extract_product_id_and_variant url).2 with
  | Some variant =>
      ∃ before rest,
        url = (before ++ "variant=" ++ rest)%string
        ∧ (∀ b a, url = (b ++ "variant=" ++ a)%string →
                  (String.length before <= String.length b)%nat)
        ∧ variant = up_to "variant=" rest
        ∧ if IndexBuilder.str_contains "variant=" rest
          then ∃ tail, rest = (variant ++ "variant=" ++ tail)%string
          else variant = rest
  | None => ¬ ∃ b a, url = (b ++ "variant=" ++ a)%string
  end.
Proof.
  unfold IndexBuilder.extract_product_id_and_variant. cbn [snd].
  destruct (IndexBuilder.str_contains "variant=" url) eqn:Hc.
  - rewrite str_split_second by done.
    destruct (find_first "variant=" url) as [[before rest]|] eqn:E.
    + apply find_first_Some in E as [Hurl Hleft].
      exists before, rest. split; [done|]. split; [done|].
      split; [done|]. unfold up_to.
      destruct (find_first "variant=" rest) as [[b' a']|] eqn:E'.
      * apply find_first_Some in E' as [Hrest _].
        assert (IndexBuilder.str_contains "variant=" rest = true) as ->
          by (apply str_contains_true; eauto).
        by exists a'.
      * apply find_first_None in E'. by rewrite E'.
    + apply find_first_None in E. congruence.
  - intros Hex. apply str_contains_true in Hex. congruence.
Qed.

(** ** Tokenizers: case, punctuation and whitespace *)

Section TokenizeInsensitive.
Import Text TextFacts.

Lemma lower_char_punctuation c :
  is_punctuation (lower_char c) = is_punctuation c.
Proof.
  destruct c as [[] [] [] [] [] [] [] []]; vm_compute; reflexivity.
Qed.

Lemma space_not_upper c : is_space c = true → is_upper c = false.
Proof.
  destruct c as [[] [] [] [] [] [] [] []]; vm_compute; congruence.
Qed.

Lemma space_not_punctuation c :
  is_space c = true → is_punctuation c = false.
Proof.
  destruct c as [[] [] [] [] [] [] [] []]; vm_compute; congruence.
Qed.

Lemma punctuation_not_upper c :
  is_punctuation c = true → is_upper c = false.
Proof.
  destruct c as [[] [] [] [] [] [] [] []]; vm_compute; congruence.
Qed.

Lemma lower_idem s : lower (lower s) = lower s.
Proof.
  induction s as [|c s IH]; simpl; [done|].
  by rewrite (lower_char_id (lower_char c)), IH
    by apply lower_char_not_upper.
Qed.

Lemma remove_punctuation_lower s :
  remove_punctuation (lower (remove_punctuation s))
  = remove_punctuation (lower s).
Proof.
  induction s as [|c s IH]; simpl; [done|].
  rewrite lower_char_punctuation.
  destruct (is_punctuation c) eqn:Hp; [done|].
  simpl. by rewrite lower_char_punctuation, Hp, IH.
Qed.

Lemma tokenize_lower text :
  Browser.tokenize (lower text) = Browser.tokenize text.
Proof. unfold Browser.tokenize. by rewrite lower_idem. Qed.

Lemma tokenize_remove_punctuation text :
  Browser.tokenize (remove_punctuation text) = Browser.tokenize text.
Proof. unfold Browser.tokenize. by rewrite remove_punctuation_lower. Qed.

Lemma tokenize_punctuation s1 c s2 :
  is_punctuation c = true →
  Browser.tokenize (s1 ++ String c s2) = Browser.tokenize (s1 ++ s2).
Proof.
  intros Hp. unfold Browser.tokenize.
  rewrite !lower_app, !remove_punctuation_app. simpl.
  by rewrite lower_char_punctuation, Hp.
Qed.

Lemma tokenize_whitespace s1 c s2 :
  is_space c = true →
  Browser.tokenize (s1 ++ String c s2)
  = Browser.tokenize s1 ++ Browser.tokenize s2.
Proof.
  intros Hsp. unfold Browser.tokenize.
  rewrite lower_app, remove_punctuation_app. simpl.
  rewrite (lower_char_id c) by by apply space_not_upper.
  rewrite (space_not_punctuation c Hsp).
  by apply split_sep.
Qed.

Lemma builder_tokenize_filter text :
  IndexBuilder.tokenize text
  = filter (λ t, t ∉ IndexBuilder.STOPWORDS) (Browser.tokenize text).
Proof. reflexivity. Qed.

End TokenizeInsensitive.

(** X20.  Neither [tokenize] sees case or punctuation: lower-casing
    the text or deleting its punctuation beforehand gives the same
    tokens, and a punctuation character is deleted, not turned into a
    separator, so the text on its two sides is tokenized as if glued
    together.  Every whitespace character separates: the tokens of a
    text are those before it followed by those after it.  Tokenizing the
    browser's tokens joined by spaces gives them back. *)
Theorem tokenize_insensitive (s1 s2 : string) (c : ascii) :
  (Browser.tokenize (Text.lower s1) = Browser.tokenize s1
   ∧ IndexBuilder.tokenize (Text.lower s1) = IndexBuilder.tokenize s1)
  ∧ (Browser.tokenize (Text.remove_punctuation s1) = Browser.tokenize s1
     ∧ IndexBuilder.tokenize (Text.remove_punctuation s1)
       = IndexBuilder.tokenize s1)
  ∧ (Text.is_punctuation c = true →
     Browser.tokenize (s1 ++ String c s2) = Browser.tokenize (s1 ++ s2)
     ∧ IndexBuilder.tokenize (s1 ++ String c s2)
       = IndexBuilder.tokenize (s1 ++ s2))
  ∧ (Text.is_space c = true →
     Browser.tokenize (s1 ++ String c s2)
     = Browser.tokenize s1 ++ Browser.tokenize s2
     ∧ IndexBuilder.tokenize (s1 ++ String c s2)
       = IndexBuilder.tokenize s1 ++ IndexBuilder.tokenize s2)
  ∧ Browser.tokenize (String.concat " " (Browser.tokenize s1))
    = Browser.tokenize s1.
Proof.
  rewrite !builder_tokenize_filter.
  split; [by rewrite tokenize_lower|].
  split; [by rewrite tokenize_remove_punctuation|].
  split; [intros Hp; by rewrite tokenize_punctuation|].
  split.
  - intros Hsp. rewrite tokenize_whitespace by done.
    by rewrite filter_app.
  - apply tokenize_join, tokenize_tokens.
Qed.

(** X20, a concrete instance: a hyphen glues, a tab separates. *)
Lemma tokenize_insensitive_witness :
  Browser.tokenize ("Red" ++ String "-" "Hat") = Browser.tokenize "RedHat"
  ∧ IndexBuilder.tokenize ("The" ++ String "009" "Hat")
    = IndexBuilder.tokenize "The" ++ IndexBuilder.tokenize "Hat".
Proof.
  split.
  - apply (tokenize_insensitive "Red" "Hat" "-"). reflexivity.
  - apply (tokenize_insensitive "The" "Hat" "009"). reflexivity.
Defined.
